(** * fire: the axe job queue, the stick codings and the torch compute job

    A shallow embedding of the parts of the repository the specification
    talks about:

    - [Stick]: [Coding.Marshal] and [Coding.Unmarshal] (package stick);
    - [Axe]:   [Queue] with [NewQueue], [Add], [Run], [Enqueue], [update]
               and [get] (package axe);
    - [Torch]: the process job of a compute operation (package torch).

    Go panics are results of their own ([Panic]); Go maps are stdpp [gmap]s,
    a nil map is [None]; a [time.Time] is a number of nanoseconds and a
    [time.Duration] a signed number of nanoseconds.

    The first part of the file holds the definitions, the second part the
    theorems about them. *)

From Stdlib Require Import ZArith QArith.
From stdpp Require Import gmap strings list fin_maps.

Open Scope Z_scope.

(** * Part I: definitions *)

(** ** Results of code that may panic *)

Inductive Result (A : Type) : Type :=
| Ok (a : A)
| Panic (msg : string).
Arguments Ok {A} a.
Arguments Panic {A} msg.

Definition rbind {A B} (r : Result A) (k : A → Result B) : Result B :=
  match r with
  | Ok a => k a
  | Panic msg => Panic msg
  end.

Notation "'let!' x := r 'in' k" := (rbind r (λ x, k))
  (at level 10, x pattern, r at level 100, k at level 200).

Definition returns {A} (r : Result A) : Prop := ∃ a, r = Ok a.
Definition panics {A} (r : Result A) : Prop := ∃ msg, r = Panic msg.

(** The message of a nil dereference, as the Go runtime words it. *)
Definition nilDeref : string :=
  "runtime error: invalid memory address or nil pointer dereference".

(** The double quote, for the messages that hold one. *)
Definition dquote : string := String (Ascii.ascii_of_nat 34) EmptyString.

(** A byte sequence ([[]byte]). *)
Definition Bytes : Type := list Byte.byte.

(** Go's [error]: [None] is nil. *)
Definition error : Type := option string.

(** ** Package stick: codings *)

Module Stick.

(** [type Coding string] with its two constants. *)
Definition Coding : Type := string.
Definition JSON : Coding := "json"%string.
Definition BSON : Coding := "bson"%string.

(** The kinds [reflect] tells apart, as far as the codings look at them. *)
Inductive Kind := Slice | OtherKind.

(** What the codings call: the encoders of encoding/json and of the mongo
    driver, [reflect], [xo.W] and [fmt].  They are libraries outside of the
    repository and stay abstract.  [Value] is a Go value ([interface{}]). *)
Class Codecs (Value : Type) := {
  (** [reflect.TypeOf(in).Kind()]: panics on a nil interface. *)
  kindOf : Value → Result Kind;
  (** [reflect.TypeOf(out).Elem().Kind()]: panics on nil and on types that
      have no element type. *)
  elemKindOf : Value → Result Kind;
  json_Marshal : Value → Bytes * error;
  bson_Marshal : Value → Bytes * error;
  bson_MarshalValue : Value → Bytes * error;
  (** The decoders write through the pointer [out]: they return what [out]
      points to afterwards. *)
  json_Unmarshal : Bytes → Value → Value * error;
  bson_Unmarshal : Bytes → Value → Value * error;
  bson_RawArrayUnmarshal : Bytes → Value → Value * error;
  (** [xo.W] wraps an error. *)
  W : error → error;
  (** The [%q] verb of [fmt]: the quoted form of a string. *)
  quote : string → string
}.

Section Coding.
Context {Value : Type} `{!Codecs Value}.

(** [fmt.Sprintf("coal: unknown coding %q", c)] *)
Definition unknownCoding (c : Coding) : string :=
  "coal: unknown coding " +:+ quote c.

Definition Marshal (c : Coding) (input : Value) : Result (Bytes * error) :=
  if decide (c = JSON) then
    let '(buf, err) := json_Marshal input in
    Ok (buf, W err)
  else if decide (c = BSON) then
    let! k := kindOf input in
    match k with
    | Slice =>
        let '(buf, err) := bson_MarshalValue input in
        Ok (buf, W err)
    | OtherKind =>
        let '(buf, err) := bson_Marshal input in
        Ok (buf, W err)
    end
  else Panic (unknownCoding c).

Definition Unmarshal (c : Coding) (input : Bytes) (out : Value)
  : Result (Value * error) :=
  if decide (c = JSON) then
    let '(v, err) := json_Unmarshal input out in
    Ok (v, W err)
  else if decide (c = BSON) then
    let! k := elemKindOf out in
    match k with
    | Slice =>
        let '(v, err) := bson_RawArrayUnmarshal input out in
        Ok (v, W err)
    | OtherKind =>
        let '(v, err) := bson_Unmarshal input out in
        Ok (v, W err)
    end
  else Panic (unknownCoding c).

End Coding.

(** A small instance to run the codings on: values are byte sequences,
    every encoder is the identity, and a string is quoted by the double
    quotes around it, which is what [%q] does to a string of letters. *)
Definition plainCodecs : Codecs Bytes := {|
  kindOf := λ _, Ok OtherKind;
  elemKindOf := λ _, Ok OtherKind;
  json_Marshal := λ v, (v, None);
  bson_Marshal := λ v, (v, None);
  bson_MarshalValue := λ v, (v, None);
  json_Unmarshal := λ b _, (b, None);
  bson_Unmarshal := λ b _, (b, None);
  bson_RawArrayUnmarshal := λ b _, (b, None);
  W := λ e, e;
  quote := λ s, dquote +:+ s +:+ dquote
|}.

End Stick.

(** ** Package axe: the queue and its boards *)

Module Axe.

Definition Time : Type := Z.
Definition Duration : Type := Z.
Definition Millisecond : Duration := 1000000.
Definition Second : Duration := 1000000000.
(** The zero [time.Time]. *)
Definition zeroTime : Time := 0.

(** [coal.ID], a 12 byte object id, read as a number; [coal.ID{}] is zero. *)
Definition ID : Type := N.
Definition zeroID : ID := 0%N.

(** Modelled from the spec: the declaration of [Status] and of its five
    constants is missing from the sources; the values are those of the job
    document layout (section 6). *)
Definition Status : Type := string.
Definition StatusEnqueued : Status := "enqueued"%string.
Definition StatusDequeued : Status := "dequeued"%string.
Definition StatusCompleted : Status := "completed"%string.
Definition StatusFailed : Status := "failed"%string.
Definition StatusCancelled : Status := "cancelled"%string.

(** Modelled from the spec: the declaration of [Event] is missing from the
    sources; the fields are those of section 3. *)
Record Event := {
  Timestamp : Time;
  EventStatus : Status;
  Reason : string;
  EventProgress : Q
}.

(** Modelled from the spec: the declaration of the job document [Model] is
    missing from the sources; the fields are those of section 3.  [DocID] is
    what the method [ID()] returns, [JobStatus] the field [Status] and
    [JobResult] the field [Result]. *)
Record Model := {
  DocID : ID;
  Name : string;
  Label : string;
  Data : Bytes;
  JobStatus : Status;
  Created : Time;
  Available : Time;
  Started : Time;
  Ended : Time;
  Finished : Time;
  Attempts : Z;
  Progress : Q;
  Events : list Event;
  JobResult : option Bytes
}.

(** [job.Available = t] *)
Definition setAvailable (job : Model) (t : Time) : Model := {|
  DocID := DocID job;
  Name := Name job;
  Label := Label job;
  Data := Data job;
  JobStatus := JobStatus job;
  Created := Created job;
  Available := t;
  Started := Started job;
  Ended := Ended job;
  Finished := Finished job;
  Attempts := Attempts job;
  Progress := Progress job;
  Events := Events job;
  JobResult := JobResult job
|}.

(** [Meta], as far as [TestGetMeta] shows it: the reflected type and the
    accessor are left out. *)
Record Meta := {
  MetaName : string;
  MetaCoding : Stick.Coding
}.

(** The job and task types of a program and the functions on them that the
    queue calls but that are missing from the sources. *)
Class Jobs := {
  (** the interface [Job] *)
  Job : Type;
  (** the struct [Task] *)
  Task : Type;
  (** the field [task.Job] *)
  TaskJob : Task → Job;
  (** [task.prepare()]: works on the task in place, so it returns the task
      as it is afterwards; it may panic. *)
  prepare : Task → Result Task;
  (** [GetMeta(job)]: panics on a job type that is not declared as it
      should be (see [TestGetMeta]). *)
  GetMeta : Job → Result Meta;
  (** the label a job carries in its [Base] *)
  JobLabel : Job → string;
  (** the payload of the job, encoded with the coding of its meta *)
  encode : Stick.Coding → Job → Bytes
}.

(** [struct board]: the mutex is left out, a call is taken to run under it
    from its start to its end.  The map holds pointers to job documents; the
    reconciler decodes a document of its own for every callback and keeps no
    reference to it, so a board is the only holder of its entries and holds
    them here by value. *)
Record board := {
  jobs : gmap ID Model
}.

(** [struct Options].  The store that [Store] points to is not part of the
    value; its job collection is the [store] of a [World] below.  The
    [Reporter] is a function that no modelled method calls. *)
Record Options := {
  MaxLag : Duration;
  BlockPeriod : Duration
}.

(** [struct Queue]; [boards = None] is the nil map, and [tasks] the map that
    [NewQueue] makes (a queue that does not come from [NewQueue] is not
    modelled).  The tomb only matters to the goroutines and is left out. *)
Record Queue `{Jobs} := {
  opts : Options;
  tasks : gmap string Task;
  boards : option (gmap string board)
}.

(** The job collection of the store together with a queue that uses it. *)
Record World `{Jobs} := {
  store : list Model;
  queue : Queue
}.

Section Queue.
Context `{Jobs}.

Definition NewQueue (o : Options) : Queue :=
  let maxLag := if decide (MaxLag o = 0) then 100 * Millisecond else MaxLag o in
  let blockPeriod := if decide (BlockPeriod o = 0) then 10 * Second else BlockPeriod o in
  {| opts := {| MaxLag := maxLag; BlockPeriod := blockPeriod |};
     tasks := ∅;
     boards := None |}.

Definition Add (q : Queue) (task : Task) : Result Queue :=
  match boards q with
  | Some _ => Panic "axe: unable to add task to running queue"
  | None =>
      let! task := prepare task in
      let! meta := GetMeta (TaskJob task) in
      let name := MetaName meta in
      match tasks q !! name with
      | Some _ =>
          Panic ("axe: task with name " +:+ dquote +:+ name +:+ dquote +:+ " already exists")
      | None =>
          Ok {| opts := opts q; tasks := <[name := task]> (tasks q); boards := boards q |}
      end
  end.

(** The loop of [Run]: one empty board under the name of each task. *)
Fixpoint createBoards (ts : list (string * Task)) (bs : gmap string board)
  : Result (gmap string board) :=
  match ts with
  | [] => Ok bs
  | (_, task) :: ts =>
      let! meta := GetMeta (TaskJob task) in
      createBoards ts (<[MetaName meta := {| jobs := ∅ |}]> bs)
  end.

(** [Run] without the goroutine it starts; the tasks are visited in the order
    of [map_to_list]. *)
Definition Run (q : Queue) : Result Queue :=
  let! bs := createBoards (map_to_list (tasks q)) ∅ in
  Ok {| opts := opts q; tasks := tasks q; boards := Some bs |}.

(** [rand.Int63n(n)]: panics unless [0 < n], and otherwise returns a number
    in [0, n).  [rnd] is the draw of the generator. *)
Definition Int63n (rnd : Z) (n : Z) : Result Z :=
  if decide (n ≤ 0) then Panic "invalid argument to Int63n"
  else Ok (rnd `mod` n).

(** The first case of the switch of [update]. *)
Definition dispatchable (s : Status) : bool :=
  bool_decide (s = StatusEnqueued) || bool_decide (s = StatusDequeued)
  || bool_decide (s = StatusFailed).

(** The second case of the switch of [update]. *)
Definition terminal (s : Status) : bool :=
  bool_decide (s = StatusCompleted) || bool_decide (s = StatusCancelled).

(** [q.boards[name]]: nil for a nil map and for a name without board; [ok] of
    the two-valued form is whether this is [Some]. *)
Definition lookupBoard (q : Queue) (name : string) : option board :=
  bs ← boards q; bs !! name.

(** The queue after a write to the board that [q.boards[name]] points to. *)
Definition setBoard (q : Queue) (name : string) (b : board) : Queue :=
  {| opts := opts q;
     tasks := tasks q;
     boards := (λ bs, <[name := b]> bs) <$> boards q |}.

(** [update]; [rnd] is the draw of the random generator. *)
Definition update (q : Queue) (job : Model) (rnd : Z) : Result Queue :=
  match lookupBoard q (Name job) with
  | None => Ok q
  | Some b =>
      if dispatchable (JobStatus job) then
        let! lag := Int63n rnd (MaxLag (opts q)) in
        let job := setAvailable job (Available job + lag) in
        Ok (setBoard q (Name job) {| jobs := <[DocID job := job]> (jobs b) |})
      else if terminal (JobStatus job) then
        Ok (setBoard q (Name job) {| jobs := delete (DocID job) (jobs b) |})
      else Ok q
  end.

(** The loop of [get]: the first job, in the order in which the keys are
    visited, that is available before [now]. *)
Fixpoint firstAvailable (now : Time) (js : gmap ID Model) (order : list ID)
  : option (ID * Model) :=
  match order with
  | [] => None
  | k :: order =>
      match js !! k with
      | Some job =>
          if bool_decide (Available job < now) then Some (k, job)
          else firstAvailable now js order
      | None => firstAvailable now js order
      end
  end.

(** [get]; [now] is what [time.Now()] returns and [order] the order in which
    the range statement visits the keys of the board, which Go leaves
    open. *)
Definition get (q : Queue) (name : string) (now : Time) (order : list ID)
  : Result (Queue * (ID * bool)) :=
  match lookupBoard q name with
  | None => Panic nilDeref
  | Some b =>
      match firstAvailable now (jobs b) order with
      | Some (k, job) =>
          let job' := setAvailable job (Available job + BlockPeriod (opts q)) in
          Ok (setBoard q name {| jobs := <[k := job']> (jobs b) |}, (DocID job', true))
      | None => Ok (q, (zeroID, false))
      end
  end.

(** What [get] returns on a hit with the entry under the key [k]. *)
Definition claimed (q : Queue) (name : string) (b : board) (k : ID) (job : Model)
  : Queue * (ID * bool) :=
  (setBoard q name
     {| jobs := <[k := setAvailable job (Available job + BlockPeriod (opts q))]> (jobs b) |},
   (DocID job, true)).

(** An order in which a range statement may visit a board. *)
Definition rangeOrder (b : board) (order : list ID) : Prop :=
  order ≡ₚ (map_to_list (jobs b)).*1.

(** Whether a job of the collection stands in the way of a new job with the
    name and label: it is in one of the three states or has finished within
    the period. *)
Definition blocks (name label : string) (now : Time) (period : Duration)
  (m : Model) : bool :=
  bool_decide (Name m = name) && bool_decide (Label m = label)
  && (dispatchable (JobStatus m) || bool_decide (now - period < Finished m)).

(** Modelled from the spec: the function [Enqueue] of the package is missing
    from the sources, only the method of the queue that calls it is there.
    After section 4.2: the payload is encoded, the name of the task resolved
    and [Available] set to [now + delay]; with a period and a label the most
    recent job that [blocks] is looked for and the job only inserted when
    there is none; otherwise the job is inserted.  [id] is the fresh id of
    the job.  Failures of the encoder and of the store are not modelled. *)
Definition Enqueue (coll : list Model) (job : Job) (delay period : Duration)
  (now : Time) (id : ID) : Result (list Model * (bool * error)) :=
  let! meta := GetMeta job in
  let model := {|
    DocID := id;
    Name := MetaName meta;
    Label := JobLabel job;
    Data := encode (MetaCoding meta) job;
    JobStatus := StatusEnqueued;
    Created := now;
    Available := now + delay;
    Started := zeroTime;
    Ended := zeroTime;
    Finished := zeroTime;
    Attempts := 0;
    Progress := 0%Q;
    Events := [];
    JobResult := None
  |} in
  if bool_decide (0 < period) && negb (bool_decide (JobLabel job = EmptyString)) then
    match find (blocks (MetaName meta) (JobLabel job) now period) (rev coll) with
    | Some _ => Ok (coll, (false, None))
    | None => Ok (coll ++ [model], (true, None))
    end
  else Ok (coll ++ [model], (true, None)).

(** The method [Queue.Enqueue]: the function of the package on the store of
    the options, with a nil context. *)
Definition Queue_Enqueue (w : World) (job : Job) (delay period : Duration)
  (now : Time) (id : ID) : Result (World * (bool * error)) :=
  let! (coll, res) := Enqueue (store w) job delay period now id in
  Ok ({| store := coll; queue := queue w |}, res).

(** [update] in a world: it has no call to the store. *)
Definition World_update (w : World) (job : Model) (rnd : Z) : Result World :=
  let! q := update (queue w) job rnd in
  Ok {| store := store w; queue := q |}.

(** A sequence of callbacks of the reconciler, each with its random draw. *)
Fixpoint updates (q : Queue) (evs : list (Model * Z)) : Result Queue :=
  match evs with
  | [] => Ok q
  | (job, rnd) :: evs =>
      let! q := update q job rnd in
      updates q evs
  end.

(** *** States of the queue *)

(** Every entry of every board is in one of the three states of the first
    case of [update]. *)
Definition boards_ok (q : Queue) : Prop :=
  ∀ name b id m,
    lookupBoard q name = Some b → jobs b !! id = Some m →
    JobStatus m = StatusEnqueued ∨ JobStatus m = StatusDequeued
    ∨ JobStatus m = StatusFailed.

(** Every entry of every board is stored under its own id. *)
Definition boards_keyed (q : Queue) : Prop :=
  ∀ name b id m,
    lookupBoard q name = Some b → jobs b !! id = Some m → DocID m = id.

(** Every task is registered under the name of its job. *)
Definition tasks_named (q : Queue) : Prop :=
  ∀ name task,
    tasks q !! name = Some task →
    ∃ meta, GetMeta (TaskJob task) = Ok meta ∧ MetaName meta = name.

(** Every board belongs to a registered task. *)
Definition boards_registered (q : Queue) : Prop :=
  ∀ name b, lookupBoard q name = Some b → is_Some (tasks q !! name).

(** The queues a program can get to: a new queue, and what [Add], [Run],
    [update] and [get] make of a queue when they return. *)
Inductive reachable : Queue → Prop :=
| reach_NewQueue o : reachable (NewQueue o)
| reach_Add q task q' : reachable q → Add q task = Ok q' → reachable q'
| reach_Run q q' : reachable q → Run q = Ok q' → reachable q'
| reach_update q job rnd q' : reachable q → update q job rnd = Ok q' → reachable q'
| reach_get q name now order q' r :
    reachable q → get q name now order = Ok (q', r) → reachable q'.

(** Whether the queue is running: [Run] has made the boards. *)
Definition running (q : Queue) : Prop := is_Some (boards q).

(** Whether a task with the job name of [task] is registered. *)
Definition registered (q : Queue) (task : Task) : Prop :=
  ∃ meta, GetMeta (TaskJob task) = Ok meta ∧ is_Some (tasks q !! MetaName meta).

(** What holds of every queue a program gets to. *)
Definition queue_inv (q : Queue) : Prop :=
  tasks_named q ∧ boards_registered q ∧ boards_ok q ∧ boards_keyed q.

(** A job of the collection stands in the way of a new job with the name
    and the label. *)
Definition blocked (coll : list Model) (name label : string) (now : Time)
  (period : Duration) : Prop :=
  ∃ m, m ∈ coll ∧ Name m = name ∧ Label m = label ∧
       ((JobStatus m = StatusEnqueued ∨ JobStatus m = StatusDequeued
         ∨ JobStatus m = StatusFailed)
        ∨ now - period < Finished m).

(** Two calls of [Queue.Enqueue] in a row with the same job, delay and
    period, at the times [now1] and [now2]. *)
Definition EnqueueTwice (w : World) (job : Job) (delay period : Duration)
  (now1 : Time) (id1 : ID) (now2 : Time) (id2 : ID)
  : Result (World * ((bool * error) * (bool * error))) :=
  let! (w1, r1) := Queue_Enqueue w job delay period now1 id1 in
  let! (w2, r2) := Queue_Enqueue w1 job delay period now2 id2 in
  Ok (w2, (r1, r2)).

End Queue.

(** *** The jobs of the tests

    The job types of the tests of the package with what [TestGetMeta] says
    about their meta; the sample the statements are run on. *)

Inductive JobType := testJob | bsonJob | invalidJob1 | invalidJob2 | invalidJob3.

Record TestJob := {
  jobType : JobType;
  baseLabel : string;
  jobData : string
}.

Record TestTask := {
  testTaskJob : TestJob;
  Workers : Z;
  MaxAttempts : Z
}.

Definition testGetMeta (job : TestJob) : Result Meta :=
  match jobType job with
  | testJob => Ok {| MetaName := "test"; MetaCoding := Stick.JSON |}
  | bsonJob => Ok {| MetaName := "bson"; MetaCoding := Stick.BSON |}
  | invalidJob1 =>
      Panic ("axe: expected first struct field to be an embedded "
             +:+ dquote +:+ "axe.Base" +:+ dquote)
  | invalidJob2 =>
      Panic ("axe: expected to find a coding tag of the form 'json:"
             +:+ dquote +:+ "-" +:+ dquote +:+ "' or 'bson:"
             +:+ dquote +:+ "-" +:+ dquote +:+ "' on "
             +:+ dquote +:+ "axe.Base" +:+ dquote)
  | invalidJob3 =>
      Panic ("axe: expected to find a tag of the form 'axe:"
             +:+ dquote +:+ "name" +:+ dquote +:+ "' on "
             +:+ dquote +:+ "axe.Base" +:+ dquote)
  end.

(** The tasks of the sample are complete: [prepare] finds nothing to do. *)
Definition testJobs : Jobs := {|
  Job := TestJob;
  Task := TestTask;
  TaskJob := testTaskJob;
  prepare := Ok;
  GetMeta := testGetMeta;
  JobLabel := baseLabel;
  encode := λ _ job, String.list_byte_of_string (jobData job)
|}.

(** A job document of the sample. *)
Definition sampleModel (id : ID) (name label : string) (st : Status)
  (available finished : Time) : Model := {|
  DocID := id;
  Name := name;
  Label := label;
  Data := [];
  JobStatus := st;
  Created := 0;
  Available := available;
  Started := zeroTime;
  Ended := zeroTime;
  Finished := finished;
  Attempts := 0;
  Progress := 0%Q;
  Events := [];
  JobResult := None
|}.

Definition sampleTask (ty : JobType) : TestTask :=
  {| testTaskJob := {| jobType := ty; baseLabel := "nightly"; jobData := "data" |};
     Workers := 2;
     MaxAttempts := 3 |}.

(** A running queue of the sample with the boards as given. *)
Definition sampleQueue (bs : gmap string board) : Queue (H := testJobs) :=
  {| opts := {| MaxLag := 100 * Millisecond; BlockPeriod := 10 * Second |};
     tasks := {[ "test"%string := sampleTask testJob ]};
     boards := Some bs |}.



(** A new queue of the sample, and the queue after [Add] and [Run]. *)
Definition sampleNew : Queue (H := testJobs) :=
  NewQueue {| MaxLag := 0; BlockPeriod := 0 |}.

Definition sampleStarted : Queue (H := testJobs) :=
  sampleQueue {[ "test"%string := {| jobs := ∅ |} ]}.

(** A board with a job that is available at 5 and one that is available at
    50, and a running queue with it. *)
Definition sampleBoard : board :=
  {| jobs := {[ 1%N := sampleModel 1%N "test" "nightly" StatusEnqueued 5 zeroTime;
                2%N := sampleModel 2%N "test" EmptyString StatusFailed 50 zeroTime ]} |}.

Definition sampleRunning : Queue (H := testJobs) :=
  sampleQueue {[ "test"%string := sampleBoard ]}.

(** A store with a job of the sample that is still enqueued. *)
Definition sampleWorld : World (H := testJobs) :=
  {| store := [sampleModel 7%N "test" "nightly" StatusEnqueued 50 zeroTime];
     queue := sampleStarted |}.

Definition emptyWorld : World (H := testJobs) :=
  {| store := []; queue := sampleStarted |}.

(** Two job documents that the reconciler hands to [update]: a new job of the
    task of the sample, and the first job of [sampleBoard] once completed. *)
Definition sampleFirst : Model :=
  sampleModel 1%N "test" "nightly" StatusEnqueued 5 zeroTime.

Definition sampleCreated : Model :=
  sampleModel 3%N "test" "weekly" StatusEnqueued 20 zeroTime.

Definition sampleCompleted : Model :=
  sampleModel 1%N "test" "nightly" StatusCompleted 5 77.

(** A job document of a task that is not registered. *)
Definition sampleForeign : Model :=
  sampleModel 4%N "other" "weekly" StatusEnqueued 20 zeroTime.

End Axe.

(** ** Package torch: the process job of a compute operation *)

Module Torch.

Definition Time : Type := Z.

(** [struct Status], as the tests of the package build it. *)
Record Status := {
  Progress : Q;
  Updated : Time;
  Hash : string;
  Valid : bool
}.

(** The update operators of the store and what they do to the fields of a
    document; the store is outside of the repository. *)
Class UpdateOps (Value : Type) := {
  applyOp : string → string → Value → gmap string Value → gmap string Value
}.

Section Compute.
Context {Value : Type} `{!UpdateOps Value}.

(** Modelled from the spec: a model of the target collection, with the
    version that the conditional updates look at (section 4.4), its fields
    by name and its status. *)
Record Doc := {
  Version : N;
  Fields : gmap string Value;
  DocStatus : option Status
}.

(** One staged change, [ctx.Change(op, field, value)]. *)
Record Staged := {
  Op : string;
  Field : string;
  Val : Value
}.

(** Modelled from the spec: the context that the functions of an operation
    get, with the loaded model and the changes staged so far. *)
Record Context := {
  Model : Doc;
  Changes : list Staged
}.

(** [ctx.Change(op, field, value)] *)
Definition Change (ctx : Context) (op field : string) (value : Value) : Context :=
  {| Model := Model ctx;
     Changes := Changes ctx ++ [{| Op := op; Field := field; Val := value |}] |}.

(** Modelled from the spec: the parameters of an operation (section 4.4).
    The functions stage their changes in the context and so return it; the
    computer also returns the progress it has reported in between. *)
Record Computation := {
  Name : string;
  Hasher : Context → string;
  Computer : Context → Context * list Q * error;
  Releaser : Context → Context * error
}.

(** Modelled from the spec: how a process job ends (section 4.4, step 4): it
    is done, it is to be run again, or it has failed with an error. *)
Inductive Outcome :=
| Done
| Retry (reason : string)
| Failed (err : string).

(** The target collection, by id. *)
Abbreviation Collection := (gmap N Doc).

Definition applyChanges (cs : list Staged) (fs : gmap string Value)
  : gmap string Value :=
  foldl (λ fs c, applyOp (Op c) (Field c) (Val c) fs) fs cs.

(** Modelled from the spec: the conditional update of the process job, which
    applies the changes and sets the status when the model still has the
    version [ver], and misses otherwise.  A write moves the version on. *)
Definition commit (coll : Collection) (id : N) (ver : N) (cs : list Staged)
  (st : Status) : option Collection :=
  match coll !! id with
  | Some cur =>
      if decide (Version cur = ver) then
        Some (<[id := {| Version := N.succ ver;
                         Fields := applyChanges cs (Fields cur);
                         DocStatus := Some st |}]> coll)
      else None
  | None => None
  end.

(** Modelled from the spec: the writes of the progress that the computer
    reports, each one a conditional update of the status (section 4.4, step
    3). *)
Fixpoint persistProgress (coll : Collection) (id : N) (ver : N) (ps : list Q)
  (now : Time) : option (Collection * N) :=
  match ps with
  | [] => Some (coll, ver)
  | p :: ps =>
      match coll !! id with
      | Some cur =>
          if decide (Version cur = ver) then
            let st := {| Progress := p; Updated := now;
                         Hash := Hash (default {| Progress := 0; Updated := 0;
                                                  Hash := EmptyString; Valid := false |}
                                         (DocStatus cur));
                         Valid := Valid (default {| Progress := 0; Updated := 0;
                                                    Hash := EmptyString; Valid := false |}
                                           (DocStatus cur)) |} in
            persistProgress
              (<[id := {| Version := N.succ ver; Fields := Fields cur;
                          DocStatus := Some st |}]> coll)
              id (N.succ ver) ps now
          else None
      | None => None
      end
  end.

Definition missed : Outcome := Retry "model changed since it was loaded".

(** Modelled from the spec: the process job of an operation for the model
    [id] (section 4.4, steps 1 to 4); the code of the job is missing from the
    sources, only its tests are there.  [coll] is the collection when the job
    loads the model, and [env] what other writers do to the collection
    between the load and the first write of the job. *)
Definition process (c : Computation) (coll : Collection) (env : Collection → Collection)
  (id : N) (now : Time) : Collection * Outcome :=
  match coll !! id with
  | None => (env coll, Failed "model not found")
  | Some m =>
      let ctx := {| Model := m; Changes := [] |} in
      let h := Hasher c ctx in
      if decide (h = EmptyString) then
        match Releaser c ctx with
        | (ctx, None) =>
            let st := {| Progress := 1; Updated := now; Hash := EmptyString; Valid := true |} in
            match commit (env coll) id (Version m) (Changes ctx) st with
            | Some coll => (coll, Done)
            | None => (env coll, missed)
            end
        | (_, Some err) => (env coll, Failed err)
        end
      else
        let invalid := {| Progress := 0; Updated := now; Hash := EmptyString; Valid := false |} in
        match commit (env coll) id (Version m) [] invalid with
        | None => (env coll, missed)
        | Some coll1 =>
            match Computer c ctx with
            | (ctx, ps, None) =>
                match persistProgress coll1 id (N.succ (Version m)) ps now with
                | None => (coll1, missed)
                | Some (coll2, ver) =>
                    let st := {| Progress := 1; Updated := now; Hash := h; Valid := true |} in
                    match commit coll2 id ver (Changes ctx) st with
                    | Some coll3 => (coll3, Done)
                    | None => (coll2, missed)
                    end
                end
            | (_, _, Some err) => (coll1, Failed err)
            end
        end
  end.

End Compute.

(** *** The operation of the tests

    [TestComputeProcess]: string fields, of which the store is only asked to
    set one; the hash of the input; a computer that writes the input in upper
    case to the output; a releaser that clears the output. *)

Definition setOps : UpdateOps string :=
  {| applyOp := λ op field value fs,
       if decide (op = "$set"%string) then <[field := value]> fs else fs |}.

Definition upper (a : Ascii.ascii) : Ascii.ascii :=
  let n := Ascii.nat_of_ascii a in
  if (97 <=? n)%nat && (n <=? 122)%nat then Ascii.ascii_of_nat (n - 32) else a.

Fixpoint ToUpper (s : string) : string :=
  match s with
  | EmptyString => EmptyString
  | String a s => String (upper a) (ToUpper s)
  end.

(** [StringHasher("Input")], with a stand-in for the digest. *)
Definition testHasher (ctx : Context (Value := string)) : string :=
  match Fields (Model ctx) !! "Input"%string with
  | Some EmptyString | None => EmptyString
  | Some s => ("sha:" +:+ s)%string
  end.

Definition testComputation : Computation (Value := string) :=
  {| Name := "Status";
     Hasher := testHasher;
     Computer := λ ctx,
       (Change ctx "$set" "Output"
          (ToUpper (default EmptyString (Fields (Model ctx) !! "Input"%string))),
        [], None);
     Releaser := λ ctx, (Change ctx "$set" "Output" EmptyString, None) |}.

(** A model whose input has been emptied while the output of the previous
    input is still there. *)
Definition leftover : Doc (Value := string) :=
  {| Version := 4;
     Fields := {[ "Input"%string := EmptyString; "Output"%string := "WHAT'S UP?"%string ]};
     DocStatus := Some {| Progress := 1; Updated := 10; Hash := "sha:What's up?";
                          Valid := true |} |}.

Definition testCollection : gmap N (Doc (Value := string)) := {[ 1%N := leftover ]}.

End Torch.

(** ** Package stick: lists of strings *)

Module StickLists.

(** A slice of strings; [None] is the nil slice, which the functions tell
    from the empty one in what they return. *)
Definition Slice : Type := option (list string).

(** The items a range statement visits: none for the nil slice. *)
Definition items (lst : Slice) : list string := default [] lst.

(** The loop that [Unique] and [Union] share: an item that is not in the
    table is put into the table and appended to the result. *)
Fixpoint addItems (st : gset string * list string) (lst : list string)
  : gset string * list string :=
  match lst with
  | [] => st
  | item :: lst =>
      if decide (item ∈ st.1) then addItems st lst
      else addItems ({[ item ]} ∪ st.1, st.2 ++ [item]) lst
  end.

Definition Unique (lst : Slice) : Slice :=
  match lst with
  | None => None
  | Some l => Some (addItems (∅, []) l).2
  end.

Fixpoint containsLoop (lst : list string) (str : string) : bool :=
  match lst with
  | [] => false
  | item :: lst => if decide (item = str) then true else containsLoop lst str
  end.

Definition Contains (lst : Slice) (str : string) : bool :=
  containsLoop (items lst) str.

Fixpoint includesLoop (all : Slice) (subset : list string) : bool :=
  match subset with
  | [] => true
  | item :: subset =>
      if negb (Contains all item) then false else includesLoop all subset
  end.

Definition Includes (all subset : Slice) : bool :=
  includesLoop all (items subset).

(** [Union(lists...)]: the first loop only looks for a list that is not nil
    (the sum of the lengths is a capacity), the second is the loop of
    [Unique] run over one list after the other. *)
Definition Union (lists : list Slice) : Slice :=
  if decide (length lists = 0%nat) then None
  else if negb (existsb (λ l : Slice, bool_decide (l ≠ None)) lists) then None
  else Some (foldl (λ st l, addItems st (items l)) (∅, []) lists).2.

Fixpoint subtractLoop (listA : list string) (listB : Slice) : list string :=
  match listA with
  | [] => []
  | item :: listA =>
      if negb (Contains listB item) then item :: subtractLoop listA listB
      else subtractLoop listA listB
  end.

Definition Subtract (listA listB : Slice) : Slice :=
  match listA with
  | None => None
  | Some a => Some (subtractLoop a listB)
  end.

Fixpoint intersectLoop (listA : list string) (listB : Slice) : list string :=
  match listA with
  | [] => []
  | item :: listA =>
      if Contains listB item then item :: intersectLoop listA listB
      else intersectLoop listA listB
  end.

Definition Intersect (listA listB : Slice) : Slice :=
  match listA, listB with
  | Some a, Some _ => Some (intersectLoop a listB)
  | _, _ => None
  end.

End StickLists.

(** ** Package axe: more states of the queue *)

Module AxeStates.
Import Axe.

Section Queue.
Context `{Jobs}.

(** Every entry of a board carries the name the board stands under. *)
Definition boards_named (q : Queue) : Prop :=
  ∀ name b id m,
    lookupBoard q name = Some b → jobs b !! id = Some m → Name m = name.

(** Once the queue is running every registered task has a board. *)
Definition boards_cover (q : Queue) : Prop :=
  running q → ∀ name, is_Some (tasks q !! name) → is_Some (lookupBoard q name).

(** What the reconciler and the workers do to a running queue: any number of
    calls of [update] and [get] that return. *)
Inductive serves : Queue → Queue → Prop :=
| serves_refl q : serves q q
| serves_update q job rnd q1 q' :
    update q job rnd = Ok q1 → serves q1 q' → serves q q'
| serves_get q name now order q1 r q' :
    get q name now order = Ok (q1, r) → serves q1 q' → serves q q'.

End Queue.

(** A queue of the sample whose [MaxLag] is negative. *)
Definition sampleNegativeLag : Options := {| MaxLag := -1; BlockPeriod := 0 |}.

Definition sampleBroken : Queue (H := testJobs) :=
  {| opts := opts (NewQueue (H := testJobs) sampleNegativeLag);
     tasks := {[ "test"%string := sampleTask testJob ]};
     boards := Some {[ "test"%string := {| jobs := ∅ |} ]} |}.

(** A job of [sampleBoard] that has been available for longer than the block
    period. *)
Definition sampleOverdue : Queue (H := testJobs) :=
  {| opts := {| MaxLag := 100 * Millisecond; BlockPeriod := 10 |};
     tasks := {[ "test"%string := sampleTask testJob ]};
     boards := Some {[ "test"%string := sampleBoard ]} |}.

(** The second job of [sampleBoard], the end of [sampleCreated], and the
    queues after the first and the second [get] on [sampleOverdue]. *)
Definition sampleSecond : Model :=
  sampleModel 2%N "test" EmptyString StatusFailed 50 zeroTime.

Definition sampleCancelled : Model :=
  sampleModel 3%N "test" "weekly" StatusCancelled 20 30.

Definition sampleOverdue1 : Queue (H := testJobs) :=
  (claimed sampleOverdue "test" sampleBoard 1%N sampleFirst).1.

Definition sampleOverdue2 : Queue (H := testJobs) :=
  (claimed sampleOverdue1 "test"
     {| jobs := <[1%N := setAvailable sampleFirst 15]> (jobs sampleBoard) |}
     1%N (setAvailable sampleFirst 15)).1.

(** The new queue of the sample with one and with two tasks. *)
Definition sampleOne (ty : JobType) (name : string) : Queue (H := testJobs) :=
  {| opts := opts sampleNew;
     tasks := {[ name := sampleTask ty ]};
     boards := None |}.

Definition sampleTwo : Queue (H := testJobs) :=
  {| opts := opts sampleNew;
     tasks := {[ "test"%string := sampleTask testJob; "bson"%string := sampleTask bsonJob ]};
     boards := None |}.

End AxeStates.

(** ** Package stick: the other methods of a coding *)

Module StickMore.
Import Stick.

(** The decoder of encoding/json with [UseNumber] switched on, which
    [SafeUnmarshal] uses for JSON. *)
Class NumberDecoder (Value : Type) := {
  json_DecodeUseNumber : Bytes → Value → Value * error
}.

(** [strings.ToLower], which [GetKey] uses for BSON. *)
Class Lowering := {
  ToLower : string → string
}.

Section Coding.
Context {Value : Type} `{!Codecs Value} `{!NumberDecoder Value} {lowering : Lowering}.

Definition SafeUnmarshal (c : Coding) (input : Bytes) (out : Value)
  : Result (Value * error) :=
  if decide (c = JSON) then
    let '(v, err) := json_DecodeUseNumber input out in
    Ok (v, W err)
  else if decide (c = BSON) then
    let! k := elemKindOf out in
    match k with
    | Slice =>
        let '(v, err) := bson_RawArrayUnmarshal input out in
        Ok (v, W err)
    | OtherKind =>
        let '(v, err) := bson_Unmarshal input out in
        Ok (v, W err)
    end
  else Panic (unknownCoding c).

(** [Transfer]: what [out] points to afterwards, and the error. *)
Definition Transfer (c : Coding) (input out : Value) : Result (Value * error) :=
  let! (data, err) := Marshal c input in
  match err with
  | Some _ => Ok (out, err)
  | None =>
      let! (v, err) := Unmarshal c data out in
      match err with
      | Some _ => Ok (v, err)
      | None => Ok (v, None)
      end
  end.

(** [reflect.StructField], as far as [GetKey] reads it: the name of the field
    and what [Tag.Get] returns for a key. *)
Record StructField := {
  FieldName : string;
  TagGet : string → string
}.

(** [strings.Split(s, sep)] for a separator of one character: the parts of
    [s] between the separators, one more than there are separators. *)
Fixpoint Split (s : string) (sep : Ascii.ascii) : list string :=
  match s with
  | EmptyString => [EmptyString]
  | String a s =>
      if decide (a = sep) then EmptyString :: Split s sep
      else match Split s sep with
           | part :: parts => String a part :: parts
           | [] => [String a EmptyString]
           end
  end.

(** Whether the character occurs in the string. *)
Fixpoint occurs (sep : Ascii.ascii) (s : string) : bool :=
  match s with
  | EmptyString => false
  | String a s => if decide (a = sep) then true else occurs sep s
  end.

Definition comma : Ascii.ascii := Ascii.ascii_of_nat 44.

Definition GetKey (c : Coding) (field : StructField) : string :=
  let tag := TagGet field c in
  if decide (tag = "-"%string) then EmptyString
  else
    let values := Split tag comma in
    match values with
    | value :: _ =>
        if decide (0 < String.length value)%nat then value
        else if decide (c = BSON) then ToLower (FieldName field) else FieldName field
    | [] => if decide (c = BSON) then ToLower (FieldName field) else FieldName field
    end.

End Coding.

(** [strings.ToLower] on strings of ASCII letters, to run [GetKey] on. *)
Definition lowerAscii (a : Ascii.ascii) : Ascii.ascii :=
  let n := Ascii.nat_of_ascii a in
  if (65 <=? n)%nat && (n <=? 90)%nat then Ascii.ascii_of_nat (n + 32) else a.

Fixpoint lowerString (s : string) : string :=
  match s with
  | EmptyString => EmptyString
  | String a s => String (lowerAscii a) (lowerString s)
  end.

Definition asciiLowering : Lowering := {| ToLower := lowerString |}.

Definition plainNumberDecoder : NumberDecoder Bytes :=
  {| json_DecodeUseNumber := λ b _, (b, None) |}.

(** A field with the tags of [Title] in the tests of the framework:
    [json:"title" bson:"title"], and one with [json:"-"] and no tag for
    BSON. *)
Definition taggedField (name jsonTag bsonTag : string) : StructField :=
  {| FieldName := name;
     TagGet := λ key, if decide (key = JSON) then jsonTag
                      else if decide (key = BSON) then bsonTag else EmptyString |}.

End StickMore.

(** ** Package coal: the base of a model *)

Module CoalBase.

(** What [reflect] decides when [MustSet] writes a field: whether a value
    can be assigned to a field of a type.  [Ty] is a type of a field,
    [Value] a Go value. *)
Class Reflection (Value Ty : Type) := {
  assignable : Value → Ty → bool
}.

(** [Field], as far as the methods of [Base] read it: the index of the field
    in the struct. *)
Record Field := {
  index : nat
}.

(** [Meta], as far as the methods of [Base] read it. *)
Record Meta := {
  MetaName : string;
  Fields : gmap string Field
}.

Section Base.
Context {Value Ty : Type} `{!Reflection Value Ty}.

(** A model that embeds [Base]: the id, the fields of the struct that
    [b.model] points to, each with its type, and the meta, which is nil
    until [Init]. *)
Record Model := {
  DocID : string;
  slots : list (Ty * Value);
  meta : option Meta
}.

Definition ID (b : Model) : string := DocID b.

(** The message of [MustGet] and [MustSet] for a field that is not there. *)
Definition notFound (name : string) (m : Meta) : string :=
  "coal: field " +:+ dquote +:+ name +:+ dquote +:+ " not found on "
  +:+ dquote +:+ MetaName m +:+ dquote.

Definition outOfRange : string := "reflect: Field index out of range".
Definition notAssignable : string := "reflect.Set: value is not assignable to the field".

Definition MustGet (b : Model) (name : string) : Result Value :=
  match meta b with
  | None => Panic nilDeref
  | Some m =>
      match Fields m !! name with
      | None => Panic (notFound name m)
      | Some field =>
          match slots b !! index field with
          | None => Panic outOfRange
          | Some (_, v) => Ok v
          end
      end
  end.

Definition MustSet (b : Model) (name : string) (value : Value) : Result Model :=
  match meta b with
  | None => Panic nilDeref
  | Some m =>
      match Fields m !! name with
      | None => Panic (notFound name m)
      | Some field =>
          match slots b !! index field with
          | None => Panic outOfRange
          | Some (ty, _) =>
              if assignable value ty then
                Ok {| DocID := DocID b;
                      slots := <[index field := (ty, value)]> (slots b);
                      meta := meta b |}
              else Panic notAssignable
          end
      end
  end.

End Base.

(** The model [Post] of the tests with its fields [Title], [Published] and
    [TextBody]; a value is a string or a boolean. *)
Inductive PostValue := VString (s : string) | VBool (b : bool).
Inductive PostType := TString | TBool.

Definition postReflection : Reflection PostValue PostType :=
  {| assignable := λ v ty,
       match v, ty with
       | VString _, TString | VBool _, TBool => true
       | _, _ => false
       end |}.

Definition postMeta : Meta :=
  {| MetaName := "Post";
     Fields := {[ "Title"%string := {| index := 0 |};
                  "Published"%string := {| index := 1 |};
                  "TextBody"%string := {| index := 2 |} ]} |}.

Definition post : Model (Value := PostValue) (Ty := PostType) :=
  {| DocID := "post00000001";
     slots := [(TString, VString "Hello"); (TBool, VBool false);
               (TString, VString EmptyString)];
     meta := Some postMeta |}.

End CoalBase.

(** ** Package coal: the catalog and its indexes *)

Module CoalCatalog.

(** The models of a program and what the catalog asks of them; the functions
    are missing from the sources and may panic. *)
Class Models := {
  (** the interface [Model] *)
  Model : Type;
  (** [Init(model).Meta().PluralName] *)
  pluralName : Model → Result string;
  (** [C(model)], the collection of the model *)
  collection : Model → Result string;
  (** [F(model, field)], the key of a field in the store *)
  fieldKey : Model → string → Result string;
  (** [bson.M], a filter of a partial index *)
  Filter : Type;
  (** what [Sort(fields...)] returns *)
  SortDoc : Type;
  Sort : list string → SortDoc
}.

(** [struct Index]; a nil filter is [None]. *)
Record Index `{Models} := {
  IndexModel : Model;
  IndexFields : list string;
  Unique : bool;
  Expiry : Z;
  IndexFilter : option Filter
}.

(** [struct Catalog] *)
Record Catalog `{Models} := {
  models : gmap string Model;
  indexes : gmap string (list Index)
}.

(** The options of an index in the driver: every one is unset until its
    setter is called. *)
Record IndexOptions `{Models} := {
  OptUnique : option bool;
  OptBackground : option bool;
  OptPartialFilterExpression : option Filter;
  OptExpireAfterSeconds : option Z
}.

(** [mongo.IndexModel] *)
Record IndexModelDoc `{Models} := {
  Keys : SortDoc;
  Options : IndexOptions
}.

Section Catalog.
Context `{Models}.

(** The conversion [int32(x)] of a 64 bit integer. *)
Definition int32 (x : Z) : Z := (x + 2 ^ 31) `mod` 2 ^ 32 - 2 ^ 31.

Definition Second : Z := 1000000000.

(** The loop of [Compile] over the fields. *)
Fixpoint fieldKeys (model : Model) (fields : list string) : Result (list string) :=
  match fields with
  | [] => Ok []
  | f :: fields =>
      let! k := fieldKey model f in
      let! ks := fieldKeys model fields in
      Ok (k :: ks)
  end.

Definition Compile (i : Index) : Result IndexModelDoc :=
  let! key := fieldKeys (IndexModel i) (IndexFields i) in
  let opts := {| OptUnique := Some (Unique i);
                 OptBackground := Some true;
                 OptPartialFilterExpression := IndexFilter i;
                 OptExpireAfterSeconds :=
                   if decide (0 < Expiry i) then Some (int32 (Expiry i ÷ Second))
                   else None |} in
  Ok {| Keys := Sort key; Options := opts |}.

(** The loop of [Add]. *)
Fixpoint addModels (ms : gmap string Model) (new : list Model)
  : Result (gmap string Model) :=
  match new with
  | [] => Ok ms
  | model :: new =>
      let! name := pluralName model in
      match ms !! name with
      | Some _ =>
          Panic ("coal: model with name " +:+ dquote +:+ name +:+ dquote
                 +:+ " already exists in catalog")
      | None => addModels (<[name := model]> ms) new
      end
  end.

Definition Add (c : Catalog) (new : list Model) : Result Catalog :=
  let! ms := addModels (models c) new in
  Ok {| models := ms; indexes := indexes c |}.

Definition NewCatalog (new : list Model) : Result Catalog :=
  Add {| models := ∅; indexes := ∅ |} new.

(** [Find]: [None] is the nil model. *)
Definition Find (c : Catalog) (pluralName : string) : option Model :=
  models c !! pluralName.

(** [All]; [order] is the order in which the range statement visits the
    names. *)
Definition All (c : Catalog) (order : list string) : list Model :=
  omap (λ name, models c !! name) order.

Definition AddIndex (c : Catalog) (model : Model) (unique : bool) (expiry : Z)
  (fields : list string) : Result Catalog :=
  let! coll := collection model in
  let index := {| IndexModel := model; IndexFields := fields; Unique := unique;
                  Expiry := expiry; IndexFilter := None |} in
  Ok {| models := models c;
        indexes := <[coll := default [] (indexes c !! coll) ++ [index]]> (indexes c) |}.

Definition AddPartialIndex (c : Catalog) (model : Model) (unique : bool)
  (expiry : Z) (fields : list string) (filter : option Filter) : Result Catalog :=
  let! coll := collection model in
  let index := {| IndexModel := model; IndexFields := fields; Unique := unique;
                  Expiry := expiry; IndexFilter := filter |} in
  Ok {| models := models c;
        indexes := <[coll := default [] (indexes c !! coll) ++ [index]]> (indexes c) |}.

(** The names of some models, as [Add] asks for them one after the other. *)
Fixpoint pluralNames (new : list Model) : Result (list string) :=
  match new with
  | [] => Ok []
  | model :: new =>
      let! name := pluralName model in
      let! names := pluralNames new in
      Ok (name :: names)
  end.

End Catalog.

(** The models of the tests of the framework, by their plural names; the key
    of a field is the field in lower case. *)
Definition testModels : Models :=
  {| Model := string;
     pluralName := λ m, if decide (m = EmptyString) then Panic "coal: no name" else Ok m;
     collection := λ m, Ok m;
     fieldKey := λ _ f, Ok (StickMore.lowerString f);
     Filter := unit;
     SortDoc := list string;
     Sort := λ fields, fields |}.

(** A model of the tests and a list of them. *)
Definition modelOf (name : string) : @Model testModels := name.
Definition modelsOf (names : list string) : list (@Model testModels) := names.

Definition someFilter : option (@Filter testModels) := Some ().

(** The empty catalog and the catalog of two models of the tests. *)
Definition emptyCatalog : Catalog (H := testModels) :=
  {| models := ∅; indexes := ∅ |}.

Definition twoModels : Catalog (H := testModels) :=
  {| models := {[ "posts"%string := modelOf "posts";
                  "comments"%string := modelOf "comments" ]};
     indexes := ∅ |}.

End CoalCatalog.

(** ** Package fire: callbacks *)

Module Fire.

(** What the callbacks use of the framework and of the request; the
    declarations are missing from the sources. *)
Class Framework := {
  (** the type [Operation] *)
  Operation : Type;
  Operation_eq_dec :: EqDecision Operation;
  (** the tracer of a context with its methods [Push] and [Pop] *)
  Tracer : Type;
  Push : string → Tracer → Tracer;
  Pop : Tracer → Tracer;
  (** whatever else a handler reads and writes through the context *)
  State : Type;
  (** [joinOperations(ops, sep)] *)
  joinOperations : list Operation → string → string
}.

(** [struct Context], as far as the callbacks read it; [ctxBasicAuth] is what
    [ctx.HTTPRequest.BasicAuth()] returns, [None] when its [ok] is false. *)
Record Context `{Framework} := {
  ctxOperation : Operation;
  ctxTracer : Tracer;
  ctxBasicAuth : option (string * string);
  ctxState : State
}.

(** The type [Handler], a function from a pointer to a context to an error:
    a handler works on the context in place, so it returns the context as it
    is afterwards. *)
Definition HandlerFunc `{Framework} : Type := Context → Context * error.

(** [struct Callback] *)
Record Callback `{Framework} := {
  Handler : HandlerFunc
}.

Section Callbacks.
Context `{Framework}.

Definition TracerPush (name : string) (ctx : Context) : Context :=
  {| ctxOperation := ctxOperation ctx;
     ctxTracer := Push name (ctxTracer ctx);
     ctxBasicAuth := ctxBasicAuth ctx;
     ctxState := ctxState ctx |}.

Definition TracerPop (ctx : Context) : Context :=
  {| ctxOperation := ctxOperation ctx;
     ctxTracer := Pop (ctxTracer ctx);
     ctxBasicAuth := ctxBasicAuth ctx;
     ctxState := ctxState ctx |}.

Definition C (name : string) (h : HandlerFunc) : Callback :=
  {| Handler := λ ctx,
       let ctx := TracerPush name ctx in
       match h ctx with
       | (ctx, Some err) => (ctx, Some err)
       | (ctx, None) => (TracerPop ctx, None)
       end |}.

(** The loop of [Only]. *)
Fixpoint onlyLoop (cb : Callback) (ops : list Operation) (ctx : Context)
  : Context * error :=
  match ops with
  | [] => (ctx, None)
  | a :: ops =>
      if decide (a = ctxOperation ctx) then Handler cb ctx else onlyLoop cb ops ctx
  end.

Definition Only (cb : Callback) (ops : list Operation) : Callback :=
  let name := "fire/Only(" +:+ joinOperations ops "," +:+ ")" in
  C name (onlyLoop cb ops).

(** The loop of [Except]. *)
Fixpoint exceptLoop (cb : Callback) (ops : list Operation) (ctx : Context)
  : Context * error :=
  match ops with
  | [] => Handler cb ctx
  | a :: ops =>
      if decide (a = ctxOperation ctx) then (ctx, None) else exceptLoop cb ops ctx
  end.

Definition Except (cb : Callback) (ops : list Operation) : Callback :=
  let name := "fire/Except(" +:+ joinOperations ops "," +:+ ")" in
  C name (exceptLoop cb ops).

(** The loop of [Combine]. *)
Fixpoint combineLoop (cbs : list Callback) (ctx : Context) : Context * error :=
  match cbs with
  | [] => (ctx, None)
  | cb :: cbs =>
      match Handler cb ctx with
      | (ctx, Some err) => (ctx, Some err)
      | (ctx, None) => combineLoop cbs ctx
      end
  end.

Definition Combine (cbs : list Callback) : Callback :=
  C "fire/Combine" (combineLoop cbs).

Definition accessDenied : error := Some "access denied"%string.

Definition BasicAuthorizer (credentials : gmap string string) : Callback :=
  C "fire/BasicAuthorizer" (λ ctx,
    match ctxBasicAuth ctx with
    | None => (ctx, accessDenied)
    | Some (user, password) =>
        match credentials !! user with
        | None => (ctx, accessDenied)
        | Some val =>
            if decide (val ≠ password) then (ctx, accessDenied) else (ctx, None)
        end
    end).

(** A handler that does nothing. *)
Definition skip : HandlerFunc := λ ctx, (ctx, None).

End Callbacks.

(** A framework to run the callbacks in: operations are numbers, the tracer
    is the list of the names pushed, and the state counts the calls of a
    handler. *)
Definition plainFramework : Framework :=
  {| Operation := nat;
     Tracer := list string;
     Push := λ name t, name :: t;
     Pop := λ t, tail t;
     State := nat;
     joinOperations := λ ops sep, EmptyString |}.

Definition plainContext (op : nat) (auth : option (string * string))
  : Context (H := plainFramework) :=
  {| ctxOperation := (op : @Operation plainFramework);
     ctxTracer := ([] : @Tracer plainFramework);
     ctxBasicAuth := auth;
     ctxState := (0%nat : @State plainFramework) |}.

Definition plainContextWith (op : nat) (tracer : list string)
  (auth : option (string * string)) (state : nat) : Context (H := plainFramework) :=
  {| ctxOperation := (op : @Operation plainFramework);
     ctxTracer := (tracer : @Tracer plainFramework);
     ctxBasicAuth := auth;
     ctxState := (state : @State plainFramework) |}.

(** A callback that counts its calls, and one that fails. *)
Definition counting : Callback (H := plainFramework) :=
  {| Handler := λ ctx : Context (H := plainFramework),
       ({| ctxOperation := ctxOperation ctx; ctxTracer := ctxTracer ctx;
           ctxBasicAuth := ctxBasicAuth ctx;
           ctxState := (S (ctxState ctx : nat) : @State plainFramework) |}, None) |}.

Definition failing : Callback (H := plainFramework) :=
  {| Handler := λ ctx : Context (H := plainFramework), (ctx, Some "failed"%string) |}.

Definition opsOf (l : list nat) : list (@Operation plainFramework) := l.

End Fire.

(** * Part II: theorems *)

(** ** Results *)

Lemma rbind_ok {A B} (r : Result A) (k : A → Result B) b :
  rbind r k = Ok b ↔ ∃ a, r = Ok a ∧ k a = Ok b.
Proof.
  destruct r as [a|msg]; simpl; split.
  - intros Hk. by exists a.
  - by intros (a' & [= <-] & Hk).
  - discriminate.
  - by intros (a' & [=] & _).
Qed.

Lemma rbind_panic {A B} (r : Result A) (k : A → Result B) :
  panics (rbind r k) ↔ panics r ∨ ∃ a, r = Ok a ∧ panics (k a).
Proof.
  destruct r as [a|msg]; simpl; split.
  - intros Hk. right. by exists a.
  - intros [[msg [=]] | (a' & [= <-] & Hk)]. done.
  - intros _. left. by exists msg.
  - intros _. by exists msg.
Qed.

Lemma panics_not_returns {A} (r : Result A) : panics r ↔ ¬ returns r.
Proof.
  destruct r as [a|msg]; split.
  - by intros [msg [=]].
  - intros Hr. destruct Hr. by exists a.
  - intros _ [a [=]].
  - intros _. by exists msg.
Qed.

(** ** Package stick *)

Module StickFacts.
Import Stick.

Section Coding.
Context {Value : Type} `{!Codecs Value}.

(** C8: for a coding that is neither "json" nor "bson", [Marshal] and
    [Unmarshal] panic with the message that names the coding ("coal: unknown
    coding" followed by the quoted coding), and so return no result. *)
Theorem unknown_coding_panics (c : Coding) (v : Value) (b : Bytes) (out : Value) :
  c ≠ JSON → c ≠ BSON →
  Marshal c v = Panic (unknownCoding c) ∧
  Unmarshal c b out = Panic (unknownCoding c) ∧
  ¬ returns (Marshal c v) ∧ ¬ returns (Unmarshal c b out).
Proof.
  intros Hj Hb.
  assert (HM : Marshal c v = Panic (unknownCoding c)).
  { unfold Marshal. by rewrite !decide_False. }
  assert (HU : Unmarshal c b out = Panic (unknownCoding c)).
  { unfold Unmarshal. by rewrite !decide_False. }
  repeat split; [done | done | |].
  - rewrite HM. by intros [r [=]].
  - rewrite HU. by intros [r [=]].
Qed.

(** The JSON coding has no panic of its own. *)
Lemma Marshal_JSON_returns (v : Value) : returns (Marshal JSON v).
Proof.
  unfold Marshal. rewrite decide_True by done.
  destruct (json_Marshal v) as [buf err]. by eexists.
Qed.

End Coding.

Lemma unknown_coding_panics_witness :
  ("xml"%string ≠ JSON ∧ "xml"%string ≠ BSON) ∧
  Marshal (Codecs0 := plainCodecs) "xml" []
    = Panic ("coal: unknown coding " +:+ dquote +:+ "xml" +:+ dquote) ∧
  Unmarshal (Codecs0 := plainCodecs) "xml" [] []
    = Panic ("coal: unknown coding " +:+ dquote +:+ "xml" +:+ dquote) ∧
  ¬ returns (Marshal (Codecs0 := plainCodecs) "xml" []) ∧
  ¬ returns (Unmarshal (Codecs0 := plainCodecs) "xml" [] []).
Proof.
  split; [split; discriminate |].
  apply (unknown_coding_panics (Codecs0 := plainCodecs) "xml" [] [] []); discriminate.
Defined.

End StickFacts.

(** ** Package axe *)

Module AxeFacts.
Import Axe.

Section Queue.
Context `{Jobs}.

(** *** Boards *)

Lemma lookupBoard_Some (q : Queue) name b :
  lookupBoard q name = Some b ↔ ∃ bs, boards q = Some bs ∧ bs !! name = Some b.
Proof.
  unfold lookupBoard. destruct (boards q) as [bs|]; simpl; split.
  - intros Hb. by exists bs.
  - by intros (bs' & [= <-] & Hb).
  - discriminate.
  - by intros (bs' & [=] & _).
Qed.

Lemma lookupBoard_setBoard (q : Queue) name b name' :
  is_Some (lookupBoard q name) →
  lookupBoard (setBoard q name b) name' =
    if decide (name = name') then Some b else lookupBoard q name'.
Proof.
  intros [b0 Hb0]. apply lookupBoard_Some in Hb0 as (bs & Hbs & Hb0).
  unfold lookupBoard, setBoard. simpl. rewrite Hbs. simpl.
  case_decide as Hn.
  - subst name'. apply lookup_insert_eq.
  - by apply lookup_insert_ne.
Qed.

Lemma lookupBoard_setBoard_eq (q : Queue) name b :
  is_Some (lookupBoard q name) → lookupBoard (setBoard q name b) name = Some b.
Proof. intros Hq. rewrite lookupBoard_setBoard by done. by rewrite decide_True. Qed.

Lemma lookupBoard_setBoard_ne (q : Queue) name b name' :
  is_Some (lookupBoard q name) → name ≠ name' →
  lookupBoard (setBoard q name b) name' = lookupBoard q name'.
Proof. intros Hq Hn. rewrite lookupBoard_setBoard by done. by rewrite decide_False. Qed.

Lemma dispatchable_spec (s : Status) :
  dispatchable s = true ↔
  s = StatusEnqueued ∨ s = StatusDequeued ∨ s = StatusFailed.
Proof.
  unfold dispatchable. rewrite !orb_true_iff, !bool_decide_eq_true. tauto.
Qed.

Lemma terminal_spec (s : Status) :
  terminal s = true ↔ s = StatusCompleted ∨ s = StatusCancelled.
Proof.
  unfold terminal. rewrite orb_true_iff, !bool_decide_eq_true. tauto.
Qed.

Lemma terminal_not_dispatchable (s : Status) :
  terminal s = true → dispatchable s = false.
Proof.
  rewrite terminal_spec. by intros [-> | ->].
Qed.

(** *** The loop of [get] *)

Lemma firstAvailable_Some now (js : gmap ID Model) order k job :
  firstAvailable now js order = Some (k, job) →
  k ∈ order ∧ js !! k = Some job ∧ Available job < now.
Proof.
  induction order as [|k0 order IH]; simpl; [done |].
  destruct (js !! k0) as [job0|] eqn:Hk0.
  - case_bool_decide as Hav.
    + intros [= <- <-]. split; [left | done].
    + intros Hf. destruct (IH Hf) as (Hin & Hk & Hlt). split; [by right | done].
  - intros Hf. destruct (IH Hf) as (Hin & Hk & Hlt). split; [by right | done].
Qed.

Lemma firstAvailable_None now (js : gmap ID Model) order :
  firstAvailable now js order = None ↔
  ∀ k job, k ∈ order → js !! k = Some job → now ≤ Available job.
Proof.
  induction order as [|k0 order IH]; simpl.
  - split; [| done]. intros _ k job Hin. by apply elem_of_nil in Hin.
  - destruct (js !! k0) as [job0|] eqn:Hk0.
    + case_bool_decide as Hav.
      * split; [done |]. intros Hall.
        specialize (Hall k0 job0 (list_elem_of_here _ _) Hk0). lia.
      * rewrite IH. split.
        -- intros Hall k job Hin Hk. apply elem_of_cons in Hin as [-> | Hin].
           ++ rewrite Hk0 in Hk. injection Hk as <-. lia.
           ++ by apply (Hall k).
        -- intros Hall k job Hin Hk. apply (Hall k); [by right | done].
    + rewrite IH. split.
      * intros Hall k job Hin Hk. apply elem_of_cons in Hin as [-> | Hin].
        -- by rewrite Hk0 in Hk.
        -- by apply (Hall k).
      * intros Hall k job Hin Hk. apply (Hall k); [by right | done].
Qed.

Lemma rangeOrder_elem (b : board) order k :
  rangeOrder b order → k ∈ order ↔ is_Some (jobs b !! k).
Proof.
  unfold rangeOrder. intros ->.
  rewrite list_elem_of_fmap. split.
  - intros ([k' m] & -> & Hin). apply elem_of_map_to_list in Hin. by exists m.
  - intros [m Hm]. exists (k, m). split; [done |]. by apply elem_of_map_to_list.
Qed.

Lemma rangeOrder_exists (b : board) : rangeOrder b (map_to_list (jobs b)).*1.
Proof. unfold rangeOrder. reflexivity. Qed.

(** *** [get] *)

Lemma get_hit_or_miss (q : Queue) name now order b :
  lookupBoard q name = Some b →
  (∃ k job, k ∈ order ∧ jobs b !! k = Some job ∧ Available job < now ∧
            get q name now order = Ok (claimed q name b k job))
  ∨ ((∀ k job, k ∈ order → jobs b !! k = Some job → now ≤ Available job) ∧
     get q name now order = Ok (q, (zeroID, false))).
Proof.
  intros Hb. unfold get. rewrite Hb.
  destruct (firstAvailable now (jobs b) order) as [[k job]|] eqn:Hf.
  - left. apply firstAvailable_Some in Hf as (Hin & Hk & Hlt).
    by exists k, job.
  - right. split; [by apply firstAvailable_None | done].
Qed.

(** C2, as amended: on a board that exists, and whatever the order in which
    the board is visited, [get] returns the id of a job of the board that is
    available strictly before [now], with [true], after adding [BlockPeriod]
    to the [Available] of the entry, when the board has such a job; and it
    returns the zero id with [false] and leaves the queue as it is when every
    job of the board has [now ≤ Available]. *)
Theorem get_claims_job_before_now (q : Queue) name now order b :
  lookupBoard q name = Some b → rangeOrder b order →
  ((∃ k job, jobs b !! k = Some job ∧ Available job < now) →
   ∃ k job, jobs b !! k = Some job ∧ Available job < now ∧
            get q name now order = Ok (claimed q name b k job))
  ∧ ((∀ k job, jobs b !! k = Some job → now ≤ Available job) →
     get q name now order = Ok (q, (zeroID, false))).
Proof.
  intros Hb Hord. split.
  - intros (k0 & job0 & Hk0 & Hlt0).
    destruct (get_hit_or_miss q name now order b Hb)
      as [(k & job & _ & Hk & Hlt & Hget) | [Hall _]].
    + by exists k, job.
    + assert (Hin : k0 ∈ order) by (by apply (rangeOrder_elem b); [| exists job0]).
      specialize (Hall k0 job0 Hin Hk0). lia.
  - intros Hall.
    destruct (get_hit_or_miss q name now order b Hb)
      as [(k & job & _ & Hk & Hlt & _) | [_ Hget]]; [| done].
    specialize (Hall k job Hk). lia.
Qed.

(** Without a board under the name, [get] ends in the panic of a nil
    dereference. *)
Lemma get_no_board (q : Queue) name now order :
  lookupBoard q name = None → get q name now order = Panic nilDeref.
Proof. intros Hb. unfold get. by rewrite Hb. Qed.

(** C10: a call of [get] that returns leaves the options and the tasks as
    they are; on a miss the whole queue is as before; on a hit one entry of
    the board of the name has changed, the one of the returned job, and only
    in its [Available], while the other entries of that board and the boards
    of the other names are as before. *)
Theorem get_frame (q : Queue) name now order q' id ok :
  get q name now order = Ok (q', (id, ok)) →
  opts q' = opts q ∧ tasks q' = tasks q ∧
  (ok = false → q' = q) ∧
  (ok = true →
   ∃ b b' k job,
     lookupBoard q name = Some b ∧ lookupBoard q' name = Some b' ∧
     jobs b !! k = Some job ∧ id = DocID job ∧
     jobs b' !! k = Some (setAvailable job (Available job + BlockPeriod (opts q))) ∧
     (∀ k', k' ≠ k → jobs b' !! k' = jobs b !! k') ∧
     (∀ name', name' ≠ name → lookupBoard q' name' = lookupBoard q name')).
Proof.
  intros Hget.
  destruct (lookupBoard q name) as [b|] eqn:Hb;
    [| by rewrite (get_no_board q name now order Hb) in Hget].
  destruct (get_hit_or_miss q name now order b Hb)
    as [(k & job & _ & Hk & Hlt & Hhit) | [_ Hmiss]].
  - rewrite Hhit in Hget. unfold claimed in Hget.
    injection Hget as <- <- <-.
    split; [done |]. split; [done |]. split; [discriminate |].
    intros _. eexists b, _, k, job.
    split; [done |].
    split; [by apply lookupBoard_setBoard_eq; rewrite Hb |].
    split; [done |]. split; [done |]. simpl.
    split; [by rewrite lookup_insert_eq |].
    split.
    + intros k' Hk'. by rewrite lookup_insert_ne.
    + intros name' Hn. apply lookupBoard_setBoard_ne; [by rewrite Hb | done].
  - rewrite Hmiss in Hget. injection Hget as <- <- <-.
    split; [done |]. split; [done |]. split; [done | discriminate].
Qed.

(** On a board whose entries are stored under their ids, the key of the
    changed entry is the id that [get] returns. *)
Lemma get_changes_returned_job (q : Queue) name now order b k job :
  boards_keyed q → lookupBoard q name = Some b →
  get q name now order = Ok (claimed q name b k job) →
  jobs b !! k = Some job → k = DocID job.
Proof.
  intros Hkeyed Hb _ Hk. symmetry. by apply (Hkeyed name b k job).
Qed.

(** *** [update] *)

Lemma Int63n_range rnd n L : Int63n rnd n = Ok L → 0 ≤ L < n.
Proof.
  unfold Int63n. case_decide as Hn; [done |].
  intros [= <-]. apply Z.mod_pos_bound. lia.
Qed.

Lemma Int63n_pos rnd n : 0 < n → Int63n rnd n = Ok (rnd `mod` n).
Proof. intros Hn. unfold Int63n. rewrite decide_False; [done | lia]. Qed.

(** Every lag below the bound is the result of some draw. *)
Lemma Int63n_onto n L : 0 ≤ L < n → Int63n L n = Ok L.
Proof.
  intros HL. rewrite Int63n_pos by lia. by rewrite Z.mod_small.
Qed.

(** What [update] stores for a job: the job with the lag on its
    [Available]. *)
Lemma update_no_board (q : Queue) job rnd :
  lookupBoard q (Name job) = None → update q job rnd = Ok q.
Proof. intros Hb. unfold update. by rewrite Hb. Qed.

Lemma update_dispatchable (q : Queue) job rnd b :
  lookupBoard q (Name job) = Some b → dispatchable (JobStatus job) = true →
  update q job rnd =
    let! lag := Int63n rnd (MaxLag (opts q)) in
    Ok (setBoard q (Name job)
          {| jobs := <[DocID job := setAvailable job (Available job + lag)]> (jobs b) |}).
Proof. intros Hb Hd. unfold update. by rewrite Hb, Hd. Qed.

Lemma update_terminal (q : Queue) job rnd b :
  lookupBoard q (Name job) = Some b → terminal (JobStatus job) = true →
  update q job rnd =
    Ok (setBoard q (Name job) {| jobs := delete (DocID job) (jobs b) |}).
Proof.
  intros Hb Ht. unfold update.
  by rewrite Hb, (terminal_not_dispatchable _ Ht), Ht.
Qed.

Lemma update_other_status (q : Queue) job rnd :
  dispatchable (JobStatus job) = false → terminal (JobStatus job) = false →
  update q job rnd = Ok q.
Proof.
  intros Hd Ht. unfold update.
  destruct (lookupBoard q (Name job)); [| done]. by rewrite Hd, Ht.
Qed.

(** The four ways in which [update] returns. *)
Lemma update_cases (q : Queue) job rnd q' :
  update q job rnd = Ok q' →
  (lookupBoard q (Name job) = None ∧ q' = q)
  ∨ (∃ b L, lookupBoard q (Name job) = Some b ∧
            dispatchable (JobStatus job) = true ∧
            0 ≤ L < MaxLag (opts q) ∧
            q' = setBoard q (Name job)
                   {| jobs := <[DocID job := setAvailable job (Available job + L)]> (jobs b) |})
  ∨ (∃ b, lookupBoard q (Name job) = Some b ∧
          terminal (JobStatus job) = true ∧
          q' = setBoard q (Name job) {| jobs := delete (DocID job) (jobs b) |})
  ∨ (is_Some (lookupBoard q (Name job)) ∧
     dispatchable (JobStatus job) = false ∧ terminal (JobStatus job) = false ∧
     q' = q).
Proof.
  intros Hup.
  destruct (lookupBoard q (Name job)) as [b|] eqn:Hb.
  - destruct (dispatchable (JobStatus job)) eqn:Hd.
    + rewrite (update_dispatchable q job rnd b Hb Hd) in Hup.
      apply rbind_ok in Hup as (L & HL & [= <-]).
      right. left. exists b, L. by apply Int63n_range in HL.
    + destruct (terminal (JobStatus job)) eqn:Ht.
      * rewrite (update_terminal q job rnd b Hb Ht) in Hup.
        injection Hup as <-. right. right. left. by exists b.
      * rewrite (update_other_status q job rnd Hd Ht) in Hup.
        injection Hup as <-. right. right. right. split; [by eexists | done].
  - rewrite (update_no_board q job rnd Hb) in Hup. injection Hup as <-.
    by left.
Qed.

(** With a positive [MaxLag], [update] returns. *)
Lemma update_returns (q : Queue) job rnd :
  0 < MaxLag (opts q) → returns (update q job rnd).
Proof.
  intros Hlag. unfold update.
  destruct (lookupBoard q (Name job)) as [b|]; [| by eexists].
  destruct (dispatchable (JobStatus job)).
  - rewrite (Int63n_pos _ _ Hlag). by eexists.
  - destruct (terminal (JobStatus job)); by eexists.
Qed.

Lemma update_opts (q : Queue) job rnd q' :
  update q job rnd = Ok q' → opts q' = opts q ∧ tasks q' = tasks q.
Proof.
  intros Hup.
  destruct (update_cases q job rnd q' Hup)
    as [[_ ->] | [(b & L & _ & _ & _ & ->) | [(b & _ & _ & ->) | (_ & _ & _ & ->)]]];
    done.
Qed.

(** The entries of the boards after a write to the board of a name. *)
Lemma setBoard_entry (q : Queue) name b0 b' name' b id m :
  lookupBoard q name = Some b0 →
  lookupBoard (setBoard q name b') name' = Some b → jobs b !! id = Some m →
  (name' = name ∧ jobs b' !! id = Some m)
  ∨ (lookupBoard q name' = Some b).
Proof.
  intros Hb0 Hb Hm.
  rewrite lookupBoard_setBoard in Hb by (by rewrite Hb0).
  case_decide as Hn.
  - injection Hb as <-. by left.
  - by right.
Qed.

Lemma update_boards_ok (q : Queue) job rnd q' :
  boards_ok q → update q job rnd = Ok q' → boards_ok q'.
Proof.
  intros Hok Hup.
  destruct (update_cases q job rnd q' Hup)
    as [[_ ->] | [(b0 & L & Hb0 & Hd & _ & ->) | [(b0 & Hb0 & _ & ->) | (_ & _ & _ & ->)]]];
    [done | | | done].
  - intros name b id m Hb Hm.
    destruct (setBoard_entry _ _ _ _ _ _ _ _ Hb0 Hb Hm) as [[-> Hm'] | Hb'].
    + simpl in Hm'. destruct (decide (DocID job = id)) as [<- | Hid].
      * rewrite lookup_insert_eq in Hm'. injection Hm' as <-. simpl.
        by apply dispatchable_spec.
      * rewrite lookup_insert_ne in Hm' by done. by apply (Hok _ _ _ _ Hb0 Hm').
    + by apply (Hok _ _ _ _ Hb' Hm).
  - intros name b id m Hb Hm.
    destruct (setBoard_entry _ _ _ _ _ _ _ _ Hb0 Hb Hm) as [[-> Hm'] | Hb'].
    + simpl in Hm'. apply lookup_delete_Some in Hm' as [_ Hm'].
      by apply (Hok _ _ _ _ Hb0 Hm').
    + by apply (Hok _ _ _ _ Hb' Hm).
Qed.

Lemma update_boards_keyed (q : Queue) job rnd q' :
  boards_keyed q → update q job rnd = Ok q' → boards_keyed q'.
Proof.
  intros Hok Hup.
  destruct (update_cases q job rnd q' Hup)
    as [[_ ->] | [(b0 & L & Hb0 & Hd & _ & ->) | [(b0 & Hb0 & _ & ->) | (_ & _ & _ & ->)]]];
    [done | | | done].
  - intros name b id m Hb Hm.
    destruct (setBoard_entry _ _ _ _ _ _ _ _ Hb0 Hb Hm) as [[-> Hm'] | Hb'].
    + simpl in Hm'. destruct (decide (DocID job = id)) as [<- | Hid].
      * rewrite lookup_insert_eq in Hm'. by injection Hm' as <-.
      * rewrite lookup_insert_ne in Hm' by done. by apply (Hok _ _ _ _ Hb0 Hm').
    + by apply (Hok _ _ _ _ Hb' Hm).
  - intros name b id m Hb Hm.
    destruct (setBoard_entry _ _ _ _ _ _ _ _ Hb0 Hb Hm) as [[-> Hm'] | Hb'].
    + simpl in Hm'. apply lookup_delete_Some in Hm' as [_ Hm'].
      by apply (Hok _ _ _ _ Hb0 Hm').
    + by apply (Hok _ _ _ _ Hb' Hm).
Qed.

Lemma updates_boards_ok (q : Queue) evs q' :
  boards_ok q → updates q evs = Ok q' → boards_ok q'.
Proof.
  revert q. induction evs as [|[job rnd] evs IH]; simpl; intros q Hok Hups.
  - by injection Hups as <-.
  - apply rbind_ok in Hups as (q1 & Hup & Hups).
    apply (IH q1); [| done]. by apply (update_boards_ok q job rnd).
Qed.


Lemma updates_opts (q : Queue) evs q' :
  updates q evs = Ok q' → opts q' = opts q.
Proof.
  revert q. induction evs as [|[job rnd] evs IH]; simpl; intros q Hups.
  - by injection Hups as <-.
  - apply rbind_ok in Hups as (q1 & Hup & Hups).
    rewrite (IH q1 Hups). by destruct (update_opts q job rnd q1 Hup).
Qed.


(** C4: when [update] stores a job that is in one of the three states on the
    board of its name, the stored entry is the received job with
    [Available] moved by a lag [L] with [0 ≤ L < MaxLag]; the job collection
    of the store is as before. *)
Theorem update_lag_in_memory (w : World) job rnd w' b :
  lookupBoard (queue w) (Name job) = Some b →
  dispatchable (JobStatus job) = true →
  World_update w job rnd = Ok w' →
  ∃ L b' stored,
    0 ≤ L < MaxLag (opts (queue w)) ∧
    lookupBoard (queue w') (Name job) = Some b' ∧
    jobs b' !! DocID job = Some stored ∧
    stored = setAvailable job (Available job + L) ∧
    Available stored = Available job + L ∧
    store w' = store w.
Proof.
  intros Hb Hd Hw. unfold World_update in Hw.
  apply rbind_ok in Hw as (q' & Hup & [= <-]). simpl.
  rewrite (update_dispatchable _ job rnd b Hb Hd) in Hup.
  apply rbind_ok in Hup as (L & HL & [= <-]).
  apply Int63n_range in HL.
  eexists L, _, _. split; [done |].
  split; [apply lookupBoard_setBoard_eq; by rewrite Hb |].
  simpl. split; [by rewrite lookup_insert_eq |]. done.
Qed.

(** Every lag in the range is one that [update] may apply. *)
Lemma update_lag_any (q : Queue) job b L :
  lookupBoard q (Name job) = Some b → dispatchable (JobStatus job) = true →
  0 ≤ L < MaxLag (opts q) →
  update q job L =
    Ok (setBoard q (Name job)
          {| jobs := <[DocID job := setAvailable job (Available job + L)]> (jobs b) |}).
Proof.
  intros Hb Hd HL. rewrite (update_dispatchable q job L b Hb Hd).
  by rewrite (Int63n_onto _ _ HL).
Qed.

(** With a [MaxLag] that is not positive, [update] panics on a job in one of
    the three states. *)
Lemma update_panics_without_lag (q : Queue) job rnd b :
  lookupBoard q (Name job) = Some b → dispatchable (JobStatus job) = true →
  MaxLag (opts q) ≤ 0 → panics (update q job rnd).
Proof.
  intros Hb Hd Hlag. rewrite (update_dispatchable q job rnd b Hb Hd).
  unfold Int63n. rewrite decide_True by done. by eexists.
Qed.

(** *** [Add] *)

Lemma Add_running (q : Queue) task :
  running q → Add q task = Panic "axe: unable to add task to running queue".
Proof. intros [bs Hbs]. unfold Add. by rewrite Hbs. Qed.

Lemma Add_ok (q : Queue) task q' :
  Add q task = Ok q' ↔
  boards q = None ∧
  ∃ task' meta,
    prepare task = Ok task' ∧ GetMeta (TaskJob task') = Ok meta ∧
    tasks q !! MetaName meta = None ∧
    q' = {| opts := opts q;
            tasks := <[MetaName meta := task']> (tasks q);
            boards := boards q |}.
Proof.
  unfold Add. split.
  - destruct (boards q) as [bs|] eqn:Hbs; [done |].
    intros Hadd. split; [done |].
    apply rbind_ok in Hadd as (task' & Hprep & Hadd).
    apply rbind_ok in Hadd as (meta & Hmeta & Hadd).
    destruct (tasks q !! MetaName meta) eqn:Hname; [done |].
    injection Hadd as <-. by exists task', meta.
  - intros (Hbs & task' & meta & Hprep & Hmeta & Hname & ->).
    rewrite Hbs, Hprep. simpl. rewrite Hmeta. simpl. by rewrite Hname.
Qed.

Lemma not_panics_returns {A} (r : Result A) : ¬ panics r → returns r.
Proof.
  destruct r as [a|msg]; intros Hr; [by exists a |].
  destruct Hr. by exists msg.
Qed.

(** When [Add] panics. *)
Lemma Add_panics_cases (q : Queue) task :
  panics (Add q task) ↔
  running q ∨ panics (prepare task)
  ∨ ∃ task', prepare task = Ok task' ∧
             (panics (GetMeta (TaskJob task')) ∨ registered q task').
Proof.
  unfold Add, running, registered.
  destruct (boards q) as [bs|] eqn:Hbs.
  { split; [intros _; left; by eexists | intros _; by eexists]. }
  destruct (prepare task) as [task'|msg] eqn:Hprep; simpl.
  2:{ split; [intros _; right; left; by eexists | intros _; by eexists]. }
  destruct (GetMeta (TaskJob task')) as [meta|msg] eqn:Hmeta; simpl.
  2:{ split; [| intros _; by eexists].
      intros _. right. right. exists task'. split; [done |].
      left. by eexists. }
  destruct (tasks q !! MetaName meta) as [old|] eqn:Hname.
  - split; [| intros _; by eexists].
    intros _. right. right. exists task'. split; [done |].
    right. exists meta. split; [done |]. by rewrite Hname.
  - split; [by intros [msg [=]] |].
    intros [[bs' [=]] | [[msg [=]] | (task'' & [= <-] & Hor)]].
    destruct Hor as [[msg Hmsg] | (meta' & Hmeta' & [old Hold])].
    + by rewrite Hmeta in Hmsg.
    + rewrite Hmeta in Hmeta'. injection Hmeta' as <-.
      by rewrite Hname in Hold.
Qed.

(** C5, as amended: [Add] panics exactly when the queue is running, or
    [prepare] panics on the task, or [GetMeta] panics on the job of the
    prepared task, or a task is registered under the name of that job;
    otherwise it returns the queue with the prepared task registered under
    the name of its job, and with the tasks under the other names, the
    options and the (nil) boards as before. *)
Theorem Add_panics_iff (q : Queue) task :
  (panics (Add q task) ↔
   running q ∨ panics (prepare task)
   ∨ ∃ task', prepare task = Ok task' ∧
              (panics (GetMeta (TaskJob task')) ∨ registered q task'))
  ∧ (¬ panics (Add q task) →
     ∃ task' meta q',
       prepare task = Ok task' ∧ GetMeta (TaskJob task') = Ok meta ∧
       Add q task = Ok q' ∧
       tasks q' !! MetaName meta = Some task' ∧
       (∀ name, name ≠ MetaName meta → tasks q' !! name = tasks q !! name) ∧
       opts q' = opts q ∧ boards q' = boards q ∧ boards q = None).
Proof.
  split; [apply Add_panics_cases |].
  intros Hnp. apply not_panics_returns in Hnp as [q' Hq'].
  pose proof Hq' as Hadd.
  apply Add_ok in Hadd as (Hbs & task' & meta & Hprep & Hmeta & Hname & ->).
  exists task', meta. eexists. split; [done |]. split; [done |].
  split; [done |]. simpl.
  split; [by rewrite lookup_insert_eq |].
  split; [| done].
  intros name Hne. by rewrite lookup_insert_ne.
Qed.

(** A task whose job has no meta cannot be added, whatever [prepare] does,
    as long as [prepare] leaves the job of the task in place. *)
Lemma Add_panics_without_meta (q : Queue) task :
  (∀ task', prepare task = Ok task' → TaskJob task' = TaskJob task) →
  panics (GetMeta (TaskJob task)) → panics (Add q task).
Proof.
  intros Hjob Hmeta. apply Add_panics_cases.
  destruct (prepare task) as [task'|msg] eqn:Hprep.
  - right. right. exists task'. split; [done |]. left.
    by rewrite (Hjob task' eq_refl).
  - right. left. by eexists.
Qed.

(** *** [Run] *)

Lemma createBoards_lookup ts (acc bs : gmap string board) name b :
  createBoards ts acc = Ok bs → bs !! name = Some b →
  acc !! name = Some b
  ∨ (b = {| jobs := ∅ |} ∧
     ∃ k task meta,
       (k, task) ∈ ts ∧ GetMeta (TaskJob task) = Ok meta ∧ MetaName meta = name).
Proof.
  revert acc. induction ts as [|[k task] ts IH]; simpl; intros acc Hcb Hb.
  - injection Hcb as <-. by left.
  - apply rbind_ok in Hcb as (meta & Hmeta & Hcb).
    destruct (IH _ Hcb Hb) as [Hacc | (-> & k' & task' & meta' & Hin & Hm' & Hn')].
    + destruct (decide (MetaName meta = name)) as [Hn | Hn].
      * subst name. rewrite lookup_insert_eq in Hacc. injection Hacc as <-.
        right. split; [done |]. exists k, task, meta.
        split; [left | done].
      * rewrite lookup_insert_ne in Hacc by done. by left.
    + right. split; [done |]. exists k', task', meta'.
      split; [by right | done].
Qed.

Lemma Run_ok (q : Queue) q' :
  Run q = Ok q' →
  opts q' = opts q ∧ tasks q' = tasks q ∧
  ∃ bs, boards q' = Some bs ∧ createBoards (map_to_list (tasks q)) ∅ = Ok bs.
Proof.
  unfold Run. intros Hrun.
  apply rbind_ok in Hrun as (bs & Hbs & [= <-]). simpl.
  split; [done |]. split; [done |]. by exists bs.
Qed.

(** The boards that [Run] makes are empty and belong to the tasks. *)
Lemma Run_boards (q : Queue) q' name b :
  tasks_named q → Run q = Ok q' → lookupBoard q' name = Some b →
  b = {| jobs := ∅ |} ∧ is_Some (tasks q' !! name).
Proof.
  intros Hnamed Hrun Hb.
  apply Run_ok in Hrun as (_ & Htasks & bs & Hbs & Hcb).
  apply lookupBoard_Some in Hb as (bs' & Hbs' & Hb).
  rewrite Hbs in Hbs'. injection Hbs' as <-.
  destruct (createBoards_lookup _ _ _ _ _ Hcb Hb)
    as [Hempty | (-> & k & task & meta & Hin & Hmeta & Hname)].
  - by rewrite lookup_empty in Hempty.
  - split; [done |]. rewrite Htasks.
    apply elem_of_map_to_list in Hin.
    destruct (Hnamed k task Hin) as (meta' & Hmeta' & Hk).
    rewrite Hmeta in Hmeta'. injection Hmeta' as <-.
    rewrite <- Hname, Hk. by exists task.
Qed.

Lemma Run_boards_ok (q : Queue) q' :
  tasks_named q → Run q = Ok q' → boards_ok q'.
Proof.
  intros Hnamed Hrun name b id m Hb Hm.
  destruct (Run_boards q q' name b Hnamed Hrun Hb) as [-> _].
  simpl in Hm. by rewrite lookup_empty in Hm.
Qed.

(** The boards that [Run] makes are a start for [update]. *)
Lemma Run_updates_boards_ok (q : Queue) q0 evs q' :
  tasks_named q → Run q = Ok q0 → updates q0 evs = Ok q' → boards_ok q'.
Proof.
  intros Hnamed Hrun Hups.
  apply (updates_boards_ok q0 evs); [| done]. by apply (Run_boards_ok q).
Qed.

(** *** The queues a program gets to *)

Lemma get_cases (q : Queue) name now order q' r :
  get q name now order = Ok (q', r) →
  ∃ b, lookupBoard q name = Some b ∧
       ((∃ k job, jobs b !! k = Some job ∧ Available job < now ∧
                  (q', r) = claimed q name b k job)
        ∨ (q', r) = (q, (zeroID, false))).
Proof.
  intros Hget.
  destruct (lookupBoard q name) as [b|] eqn:Hb;
    [| by rewrite (get_no_board q name now order Hb) in Hget].
  exists b. split; [done |].
  destruct (get_hit_or_miss q name now order b Hb)
    as [(k & job & _ & Hk & Hlt & Hhit) | [_ Hmiss]].
  - left. exists k, job. rewrite Hhit in Hget. by injection Hget as <- <-.
  - right. rewrite Hmiss in Hget. by injection Hget as <- <-.
Qed.

Lemma NewQueue_inv o : queue_inv (NewQueue o).
Proof.
  unfold queue_inv, tasks_named, boards_registered, boards_ok, boards_keyed.
  unfold lookupBoard. simpl.
  split; [| done]. intros name task Hname. by rewrite lookup_empty in Hname.
Qed.

Lemma Add_inv (q : Queue) task q' : queue_inv q → Add q task = Ok q' → queue_inv q'.
Proof.
  intros (Hnamed & _ & _ & _) Hadd.
  apply Add_ok in Hadd as (Hbs & task' & meta & Hprep & Hmeta & Hname & ->).
  unfold queue_inv, tasks_named, boards_registered, boards_ok, boards_keyed.
  unfold lookupBoard. simpl. rewrite Hbs. simpl.
  split; [| done]. intros name t Ht.
  destruct (decide (MetaName meta = name)) as [<- | Hne].
  - rewrite lookup_insert_eq in Ht. injection Ht as <-. by exists meta.
  - rewrite lookup_insert_ne in Ht by done. by apply Hnamed.
Qed.

Lemma Run_inv (q : Queue) q' : queue_inv q → Run q = Ok q' → queue_inv q'.
Proof.
  intros (Hnamed & _ & _ & _) Hrun.
  pose proof (Run_ok q q' Hrun) as (_ & Htasks & _).
  split; [| split; [| split]].
  - unfold tasks_named. by rewrite Htasks.
  - intros name b Hb. by destruct (Run_boards q q' name b Hnamed Hrun Hb).
  - by apply (Run_boards_ok q).
  - intros name b id m Hb Hm.
    destruct (Run_boards q q' name b Hnamed Hrun Hb) as [-> _].
    simpl in Hm. by rewrite lookup_empty in Hm.
Qed.

Lemma setBoard_registered (q : Queue) name b :
  is_Some (lookupBoard q name) → boards_registered q →
  boards_registered (setBoard q name b).
Proof.
  intros Hq Hreg name' b' Hb'. simpl.
  rewrite lookupBoard_setBoard in Hb' by done.
  case_decide as Hn.
  - subst name'. destruct Hq as [b0 Hb0]. by apply (Hreg name b0).
  - by apply (Hreg name' b').
Qed.

Lemma update_inv (q : Queue) job rnd q' :
  queue_inv q → update q job rnd = Ok q' → queue_inv q'.
Proof.
  intros (Hnamed & Hreg & Hok & Hkeyed) Hup.
  split; [| split; [| split]].
  - unfold tasks_named. by destruct (update_opts q job rnd q' Hup) as [_ ->].
  - destruct (update_cases q job rnd q' Hup)
      as [[_ ->] | [(b0 & L & Hb0 & _ & _ & ->) | [(b0 & Hb0 & _ & ->) | (_ & _ & _ & ->)]]];
      [done | | | done]; apply setBoard_registered; by rewrite ?Hb0.
  - by apply (update_boards_ok q job rnd).
  - by apply (update_boards_keyed q job rnd).
Qed.

Lemma get_inv (q : Queue) name now order q' r :
  queue_inv q → get q name now order = Ok (q', r) → queue_inv q'.
Proof.
  intros Hinv Hget.
  destruct (get_cases q name now order q' r Hget)
    as (b0 & Hb0 & [(k & job & Hk & _ & Hq') | Hq']);
    [| by injection Hq' as -> _].
  destruct Hinv as (Hnamed & Hreg & Hok & Hkeyed).
  unfold claimed in Hq'. injection Hq' as -> _.
  split; [done |]. split; [| split].
  - apply setBoard_registered; [by rewrite Hb0 | done].
  - intros name' b id m Hb Hm.
    destruct (setBoard_entry _ _ _ _ _ _ _ _ Hb0 Hb Hm) as [[-> Hm'] | Hb'].
    + simpl in Hm'. destruct (decide (k = id)) as [<- | Hid].
      * rewrite lookup_insert_eq in Hm'. injection Hm' as <-. simpl.
        by apply (Hok _ _ _ _ Hb0 Hk).
      * rewrite lookup_insert_ne in Hm' by done. by apply (Hok _ _ _ _ Hb0 Hm').
    + by apply (Hok _ _ _ _ Hb' Hm).
  - intros name' b id m Hb Hm.
    destruct (setBoard_entry _ _ _ _ _ _ _ _ Hb0 Hb Hm) as [[-> Hm'] | Hb'].
    + simpl in Hm'. destruct (decide (k = id)) as [<- | Hid].
      * rewrite lookup_insert_eq in Hm'. injection Hm' as <-. simpl.
        by apply (Hkeyed _ _ _ _ Hb0 Hk).
      * rewrite lookup_insert_ne in Hm' by done. by apply (Hkeyed _ _ _ _ Hb0 Hm').
    + by apply (Hkeyed _ _ _ _ Hb' Hm).
Qed.

Lemma reachable_inv (q : Queue) : reachable q → queue_inv q.
Proof.
  induction 1 as [o | q task q' _ IH Hadd | q q' _ IH Hrun
                  | q job rnd q' _ IH Hup | q name now order q' r _ IH Hget].
  - apply NewQueue_inv.
  - by apply (Add_inv q task).
  - by apply (Run_inv q).
  - by apply (update_inv q job rnd).
  - by apply (get_inv q name now order q' r).
Qed.

(** C9: in a queue that a program gets to, [update] with a job whose name is
    the name of no registered task returns the queue as it is: no board is
    changed (and nothing else of the queue). *)
Theorem update_unregistered_name (q : Queue) job rnd :
  reachable q → tasks q !! Name job = None → update q job rnd = Ok q.
Proof.
  intros Hreach Hname. apply update_no_board.
  destruct (lookupBoard q (Name job)) as [b|] eqn:Hb; [| done].
  destruct (reachable_inv q Hreach) as (_ & Hreg & _ & _).
  destruct (Hreg (Name job) b Hb) as [task Htask].
  by rewrite Hname in Htask.
Qed.

(** *** [Enqueue] *)





(** Without a period or without a label the job is inserted. *)
Lemma Enqueue_unconditional coll job delay period now id meta :
  period ≤ 0 ∨ JobLabel job = EmptyString → GetMeta job = Ok meta →
  ∃ m, Enqueue coll job delay period now id = Ok (coll ++ [m], (true, None)).
Proof.
  intros Hor Hmeta. unfold Enqueue. rewrite Hmeta. simpl.
  destruct Hor as [Hp | Hl].
  - rewrite bool_decide_eq_false_2 by lia. simpl. by eexists.
  - rewrite (bool_decide_eq_true_2 (JobLabel job = EmptyString)) by done.
    rewrite andb_false_r. by eexists.
Qed.


(** A job that has finished since the first of two calls stands in the way of
    the second call as long as this comes within the period. *)
Lemma finished_job_blocks_within_period coll name label now1 now2 period m :
  m ∈ coll → Name m = name → Label m = label →
  now1 ≤ Finished m → now2 < now1 + period →
  blocked coll name label now2 period.
Proof.
  intros Hin Hname Hlabel Hfin Hnow. exists m.
  split; [done |]. split; [done |]. split; [done |]. right. lia.
Qed.


End Queue.

End AxeFacts.

(** ** The queue on the jobs of the tests *)

Module AxeSample.
Import Axe AxeFacts.

Lemma sampleStarted_reachable : reachable sampleStarted.
Proof.
  apply (reach_Run (H := testJobs)
           {| opts := {| MaxLag := 100 * Millisecond; BlockPeriod := 10 * Second |};
              tasks := {[ "test"%string := sampleTask testJob ]};
              boards := None |}); [| by vm_compute].
  apply (reach_Add (H := testJobs) sampleNew (sampleTask testJob)); [| by vm_compute].
  apply reach_NewQueue.
Qed.

(** The methods on the sample. *)

Example NewQueue_defaults :
  opts sampleNew = {| MaxLag := 100000000; BlockPeriod := 10000000000 |}.
Proof. reflexivity. Qed.

Example NewQueue_keeps_options :
  opts (NewQueue (H := testJobs) {| MaxLag := 5; BlockPeriod := -1 |})
  = {| MaxLag := 5; BlockPeriod := -1 |}.
Proof. reflexivity. Qed.

Example Add_then_Run :
  (let! q := Add sampleNew (sampleTask testJob) in Run q) = Ok sampleStarted.
Proof. by vm_compute. Qed.

Example Add_twice_panics :
  (let! q := Add sampleNew (sampleTask testJob) in Add q (sampleTask testJob))
  = Panic ("axe: task with name " +:+ dquote +:+ "test" +:+ dquote +:+ " already exists").
Proof. by vm_compute. Qed.

Example Add_running_panics :
  Add sampleStarted (sampleTask bsonJob)
  = Panic "axe: unable to add task to running queue".
Proof. reflexivity. Qed.

Example update_completed_removes :
  update sampleRunning sampleCompleted 3
  = Ok (sampleQueue
          {[ "test"%string :=
               {| jobs := {[ 2%N := sampleModel 2%N "test" EmptyString StatusFailed 50
                                      zeroTime ]} |} ]}).
Proof. by vm_compute. Qed.

Example update_unknown_status_ignored :
  update sampleRunning (sampleModel 1%N "test" "nightly" "paused" 5 zeroTime) 3
  = Ok sampleRunning.
Proof. by vm_compute. Qed.

Example get_without_board_panics :
  get sampleRunning "bson" 10 [] = Panic nilDeref.
Proof. reflexivity. Qed.

Example Enqueue_without_label_inserts_twice :
  ∃ w2, EnqueueTwice emptyWorld
          {| jobType := testJob; baseLabel := EmptyString; jobData := "data" |}
          0 10 100 8%N 105 9%N
        = Ok (w2, ((true, None), (true, None)))
        ∧ length (store w2) = 2%nat.
Proof. eexists. split; [by vm_compute | reflexivity]. Qed.


Lemma sampleBoard_order : rangeOrder sampleBoard [1%N; 2%N].
Proof. unfold rangeOrder. vm_compute. apply perm_swap. Qed.



Lemma get_claims_job_before_now_witness :
  (lookupBoard sampleRunning "test" = Some sampleBoard
   ∧ rangeOrder sampleBoard [1%N; 2%N]) ∧
  ∃ k job,
    jobs sampleBoard !! k = Some job ∧ Available job < 10 ∧
    get sampleRunning "test" 10 [1%N; 2%N]
      = Ok (claimed sampleRunning "test" sampleBoard k job).
Proof.
  assert (Hb : lookupBoard sampleRunning "test" = Some sampleBoard) by reflexivity.
  split; [split; [done | apply sampleBoard_order] |].
  destruct (get_claims_job_before_now sampleRunning "test" 10 [1%N; 2%N] sampleBoard
              Hb sampleBoard_order) as [Hhit _].
  apply Hhit. exists 1%N, sampleFirst. split; reflexivity.
Defined.

(** A board whose first job is available at 5, asked at 5: the job has
    [Available ≤ now], and [get] returns the zero id and [false]. *)
Lemma get_misses_job_available_now :
  lookupBoard sampleRunning "test" = Some sampleBoard ∧
  rangeOrder sampleBoard [1%N; 2%N] ∧
  (∃ job, jobs sampleBoard !! 1%N = Some job ∧ Available job ≤ 5) ∧
  get sampleRunning "test" 5 [1%N; 2%N] = Ok (sampleRunning, (zeroID, false)).
Proof.
  split; [reflexivity |]. split; [apply sampleBoard_order |].
  split; [| by vm_compute].
  exists sampleFirst. split; [reflexivity |]. simpl. lia.
Qed.


Lemma update_lag_in_memory_witness :
  let w' := {| store := store sampleWorld;
               queue := setBoard sampleStarted "test"
                          {| jobs := {[ 3%N := setAvailable sampleCreated 50000027 ]} |} |} in
  (lookupBoard (queue sampleWorld) (Name sampleCreated) = Some {| jobs := ∅ |}
   ∧ dispatchable (JobStatus sampleCreated) = true
   ∧ World_update sampleWorld sampleCreated 250000007 = Ok w') ∧
  ∃ L b' stored,
    0 ≤ L < 100 * Millisecond ∧
    lookupBoard (queue w') "test" = Some b' ∧
    jobs b' !! 3%N = Some stored ∧
    stored = setAvailable sampleCreated (20 + L) ∧
    Available stored = 20 + L ∧
    store w' = store sampleWorld.
Proof.
  intros w'.
  assert (Hb : lookupBoard (queue sampleWorld) (Name sampleCreated)
               = Some {| jobs := ∅ |}) by reflexivity.
  assert (Hd : dispatchable (JobStatus sampleCreated) = true) by reflexivity.
  assert (Hw : World_update sampleWorld sampleCreated 250000007 = Ok w')
    by (by vm_compute).
  split; [done |].
  apply (update_lag_in_memory sampleWorld sampleCreated 250000007 w' _ Hb Hd Hw).
Defined.

Lemma Add_panics_iff_witness :
  ¬ panics (Add sampleNew (sampleTask testJob)) ∧
  ∃ q', Add sampleNew (sampleTask testJob) = Ok q'
        ∧ tasks q' !! "test"%string = Some (sampleTask testJob)
        ∧ boards q' = None.
Proof.
  assert (Hnp : ¬ panics (Add sampleNew (sampleTask testJob))).
  { intros [msg Hmsg]. vm_compute in Hmsg. discriminate. }
  split; [done |].
  destruct (Add_panics_iff sampleNew (sampleTask testJob)) as [_ Hok].
  destruct (Hok Hnp) as (task' & meta & q' & Hprep & Hmeta & Hadd & Hlook & _ & _ & Hbs & Hnil).
  injection Hprep as <-. injection Hmeta as <-.
  exists q'. split; [done |]. split; [done |]. by rewrite Hbs.
Defined.

(** A task whose job is of the type [invalidJob1] of the tests, added to a
    new queue: [Add] panics, though the queue is not running and no task is
    registered. *)
Lemma Add_panics_on_invalid_job :
  panics (Add sampleNew (sampleTask invalidJob1)) ∧
  ¬ running sampleNew ∧
  ¬ registered sampleNew (sampleTask invalidJob1) ∧
  tasks sampleNew = ∅.
Proof.
  split; [eexists; by vm_compute |].
  split; [by intros [bs [=]] |].
  split; [| reflexivity].
  intros (meta & Hmeta & _). vm_compute in Hmeta. discriminate.
Qed.

Lemma update_unregistered_name_witness :
  (reachable sampleStarted ∧ tasks sampleStarted !! Name sampleForeign = None) ∧
  update sampleStarted sampleForeign 5 = Ok sampleStarted.
Proof.
  assert (Hn : tasks sampleStarted !! Name sampleForeign = None) by reflexivity.
  split; [split; [apply sampleStarted_reachable | done] |].
  apply (update_unregistered_name sampleStarted sampleForeign 5
           sampleStarted_reachable Hn).
Defined.

Lemma get_frame_witness :
  let q' := (claimed sampleRunning "test" sampleBoard 1%N sampleFirst).1 in
  get sampleRunning "test" 10 [1%N; 2%N] = Ok (q', (1%N, true)) ∧
  opts q' = opts sampleRunning ∧ tasks q' = tasks sampleRunning ∧
  ∃ b b' k job,
    lookupBoard sampleRunning "test" = Some b ∧ lookupBoard q' "test" = Some b' ∧
    jobs b !! k = Some job ∧ 1%N = DocID job ∧
    jobs b' !! k = Some (setAvailable job (Available job + 10 * Second)) ∧
    (∀ k', k' ≠ k → jobs b' !! k' = jobs b !! k') ∧
    (∀ name', name' ≠ "test"%string →
              lookupBoard q' name' = lookupBoard sampleRunning name').
Proof.
  intros q'.
  assert (Hget : get sampleRunning "test" 10 [1%N; 2%N] = Ok (q', (1%N, true)))
    by (by vm_compute).
  split; [done |].
  destruct (get_frame sampleRunning "test" 10 [1%N; 2%N] q' 1%N true Hget)
    as (Hopts & Htasks & _ & Hhit).
  split; [done |]. split; [done |]. by apply Hhit.
Defined.

End AxeSample.

(** ** Package torch *)

Module TorchFacts.
Import Torch.

Section Compute.
Context {Value : Type} `{!UpdateOps Value}.


Lemma commit_missed (coll : gmap N Doc) id ver cs st cur :
  coll !! id = Some cur → Version cur ≠ ver → commit coll id ver cs st = None.
Proof. intros Hcur Hver. unfold commit. by rewrite Hcur, decide_False. Qed.


(** When the model has another version by the time the job writes, nothing
    is committed and the job is to be run again. *)
Lemma process_misses_on_changed_version (c : Computation) (coll : gmap N Doc)
  env id now m ctx' cur :
  coll !! id = Some m →
  Hasher c {| Model := m; Changes := [] |} = EmptyString →
  Releaser c {| Model := m; Changes := [] |} = (ctx', None) →
  env coll !! id = Some cur → Version cur ≠ Version m →
  process c coll env id now = (env coll, missed).
Proof.
  intros Hm Hh Hrel Hcur Hver. unfold process.
  rewrite Hm, Hh, Hrel. rewrite decide_True by done.
  by rewrite (commit_missed (env coll) id (Version m) _ _ cur Hcur Hver).
Qed.

End Compute.

(** The scenarios "first input" and "leftover" of [TestComputeProcess]. *)

Example ToUpper_hello : ToUpper "Hello world!" = "HELLO WORLD!"%string.
Proof. reflexivity. Qed.

Example process_first_input :
  let m := {| Version := 1;
              Fields := {[ "Input"%string := "Hello world!"%string;
                           "Output"%string := EmptyString ]};
              DocStatus := Some {| Progress := 1; Updated := 10; Hash := EmptyString;
                                   Valid := true |} |} in
  process (UpdateOps0 := setOps) testComputation {[ 1%N := m ]} id 1%N 20
  = ({[ 1%N := {| Version := 3;
                  Fields := {[ "Input"%string := "Hello world!"%string;
                               "Output"%string := "HELLO WORLD!"%string ]};
                  DocStatus := Some {| Progress := 1; Updated := 20;
                                       Hash := "sha:Hello world!"; Valid := true |} |} ]},
     Done).
Proof. by vm_compute. Qed.

Example process_leftover_changed_meanwhile :
  process (UpdateOps0 := setOps) testComputation testCollection
    (λ coll, <[1%N := {| Version := 5; Fields := Fields leftover;
                        DocStatus := DocStatus leftover |}]> coll) 1%N 20
  = ({[ 1%N := {| Version := 5; Fields := Fields leftover;
                  DocStatus := DocStatus leftover |} ]}, missed).
Proof. by vm_compute. Qed.


End TorchFacts.

(** ** Package stick: lists of strings *)

Module StickListsFacts.
Import StickLists.

(** *** The loop of [Unique] and [Union] *)

Lemma addItems_app st l1 l2 :
  addItems st (l1 ++ l2) = addItems (addItems st l1) l2.
Proof.
  revert st. induction l1 as [|item l1 IH]; intros st; simpl; [done |].
  case_decide; apply IH.
Qed.

Lemma addItems_inv st l :
  (∀ x, x ∈ st.1 ↔ x ∈ st.2) → NoDup st.2 →
  (∀ x, x ∈ (addItems st l).1 ↔ x ∈ (addItems st l).2) ∧
  NoDup (addItems st l).2 ∧
  (∀ x, x ∈ (addItems st l).2 ↔ x ∈ st.2 ∨ x ∈ l) ∧
  ∃ new, (addItems st l).2 = st.2 ++ new ∧ new `sublist_of` l.
Proof.
  revert st. induction l as [|item l IH]; intros st Htab Hnd; simpl.
  - split; [done |]. split; [done |]. split.
    + intros x. rewrite elem_of_nil. tauto.
    + exists []. by rewrite app_nil_r.
  - case_decide as Hin.
    + destruct (IH st Htab Hnd) as (Htab' & Hnd' & Hmem & new & Hnew & Hsub).
      split; [done |]. split; [done |]. split.
      * intros x. rewrite Hmem, elem_of_cons.
        split; [tauto |]. intros [Hx | [-> | Hx]]; [tauto | | tauto].
        left. by apply Htab.
      * exists new. split; [done |]. by apply sublist_cons.
    + destruct (IH ({[ item ]} ∪ st.1, st.2 ++ [item])) as (Htab' & Hnd' & Hmem & new & Hnew & Hsub).
      * intros x. simpl. rewrite elem_of_union, elem_of_singleton, elem_of_app,
          list_elem_of_singleton, Htab. tauto.
      * simpl. apply NoDup_app. split; [done |]. split; [| apply NoDup_singleton].
        intros x Hx Hx'. apply list_elem_of_singleton in Hx'. subst x.
        apply Hin. by apply Htab.
      * split; [done |]. split; [done |]. split.
        -- intros x. rewrite Hmem. simpl.
           rewrite elem_of_app, list_elem_of_singleton, elem_of_cons. tauto.
        -- exists (item :: new). simpl in Hnew. rewrite Hnew, <- app_assoc.
           split; [done |]. by apply sublist_skip.
Qed.

Lemma addItems_NoDup st l :
  (∀ x, x ∈ st.1 ↔ x ∈ st.2) → NoDup (st.2 ++ l) →
  (addItems st l).2 = st.2 ++ l.
Proof.
  revert st. induction l as [|item l IH]; intros st Htab Hnd; simpl.
  - by rewrite app_nil_r.
  - apply NoDup_app in Hnd as (Hnd1 & Hdisj & Hnd2).
    apply NoDup_cons in Hnd2 as [Hitem Hnd2].
    rewrite decide_False.
    + rewrite IH; simpl.
      * by rewrite <- app_assoc.
      * intros x. rewrite elem_of_union, elem_of_singleton, elem_of_app,
          list_elem_of_singleton, Htab. tauto.
      * rewrite <- app_assoc. simpl. apply NoDup_app.
        split; [done |]. split; [done |]. by apply NoDup_cons.
    + intros Hin. apply Htab in Hin. apply (Hdisj item Hin). by left.
Qed.

Lemma empty_table : ∀ x : string, x ∈ (∅ : gset string, [] : list string).1
                                  ↔ x ∈ (∅ : gset string, [] : list string).2.
Proof. intros x. simpl. rewrite elem_of_nil. set_solver. Qed.

(** *** [Contains] and [Includes] *)

Lemma containsLoop_spec l str : containsLoop l str = true ↔ str ∈ l.
Proof.
  induction l as [|item l IH]; simpl.
  - rewrite elem_of_nil. split; [discriminate | done].
  - rewrite elem_of_cons. case_decide as Heq.
    + split; [intros _; by left | done].
    + rewrite IH. split; [tauto |]. intros [-> | Hin]; [done | done].
Qed.

Lemma Contains_spec lst str : Contains lst str = true ↔ str ∈ items lst.
Proof. apply containsLoop_spec. Qed.

Lemma Contains_false lst str : Contains lst str = false ↔ str ∉ items lst.
Proof.
  rewrite <- Contains_spec. destruct (Contains lst str); split; done.
Qed.

Lemma includesLoop_spec all subset :
  includesLoop all subset = true ↔ ∀ x, x ∈ subset → x ∈ items all.
Proof.
  induction subset as [|item subset IH]; simpl.
  - split; [| done]. intros _ x Hx. by apply elem_of_nil in Hx.
  - destruct (Contains all item) eqn:Hc; simpl.
    + apply Contains_spec in Hc. rewrite IH. split.
      * intros Hall x Hx. apply elem_of_cons in Hx as [-> | Hx]; [done |].
        by apply Hall.
      * intros Hall x Hx. apply Hall. by right.
    + apply Contains_false in Hc. split; [done |].
      intros Hall. destruct Hc. apply Hall. by left.
Qed.

(** X6: [Contains] tells whether the string is an item of the list, and
    [Includes] whether every item of the second list is an item of the
    first; so every list includes the nil list and itself, and inclusion
    carries over from list to list. *)
Theorem Includes_spec (all subset other : Slice) (str : string) :
  (Contains all str = true ↔ str ∈ items all) ∧
  (Includes all subset = true ↔ ∀ x, x ∈ items subset → x ∈ items all) ∧
  Includes all None = true ∧ Includes all all = true ∧
  (Includes all subset = true → Includes subset other = true →
   Includes all other = true).
Proof.
  split; [apply Contains_spec |].
  split; [apply includesLoop_spec |].
  split; [done |].
  split; [by apply includesLoop_spec |].
  unfold Includes. rewrite !includesLoop_spec. intros H1 H2 x Hx.
  by apply H1, H2.
Qed.

(** *** [Unique] *)

(** X1: [Unique] returns nil for nil; for any other list it returns a list
    without duplicates that has the same items as the input, in the order of
    the input (it is a sublist of it). *)
Theorem Unique_spec (l : list string) :
  Unique None = None ∧
  ∃ r, Unique (Some l) = Some r ∧
       NoDup r ∧ (∀ x, x ∈ r ↔ x ∈ l) ∧ r `sublist_of` l.
Proof.
  split; [done |]. eexists. split; [done |].
  destruct (addItems_inv (∅, []) l empty_table NoDup_nil_2)
    as (_ & Hnd & Hmem & new & Hnew & Hsub).
  split; [done |]. split.
  - intros x. rewrite Hmem. simpl. rewrite elem_of_nil. tauto.
  - rewrite Hnew. done.
Qed.

Lemma Unique_NoDup (l : list string) : NoDup l → Unique (Some l) = Some l.
Proof.
  intros Hnd. unfold Unique. f_equal.
  by rewrite (addItems_NoDup (∅, []) l empty_table).
Qed.

(** X2: [Unique] keeps the first occurrence of every item: what it returns
    for a list is the start of what it returns for any longer list.  A list
    without duplicates is returned as it is, so applying [Unique] twice is
    the same as applying it once. *)
Theorem Unique_first_occurrence (lst : Slice) (l1 l2 : list string) :
  (∃ r1 r2, Unique (Some l1) = Some r1 ∧ Unique (Some (l1 ++ l2)) = Some (r1 ++ r2)) ∧
  (NoDup l1 → Unique (Some l1) = Some l1) ∧
  Unique (Unique lst) = Unique lst.
Proof.
  split; [| split].
  - unfold Unique. rewrite addItems_app.
    destruct (addItems_inv (∅, []) l1 empty_table NoDup_nil_2)
      as (Htab & Hnd & _ & _).
    destruct (addItems_inv (addItems (∅, []) l1) l2 Htab Hnd)
      as (_ & _ & _ & new & Hnew & _).
    eexists _, new. split; [done |]. by rewrite Hnew.
  - apply Unique_NoDup.
  - destruct lst as [l|]; [| done].
    destruct (addItems_inv (∅, []) l empty_table NoDup_nil_2) as (_ & Hnd & _).
    by apply Unique_NoDup.
Qed.

(** *** [Union] *)

Lemma foldl_addItems st (lists : list Slice) :
  foldl (λ st l, addItems st (items l)) st lists
  = addItems st (concat (items <$> lists)).
Proof.
  revert st. induction lists as [|l lists IH]; intros st; simpl; [done |].
  by rewrite IH, addItems_app.
Qed.

Lemma all_nil_spec (lists : list Slice) :
  existsb (λ l : Slice, bool_decide (l ≠ None)) lists = false ↔
  ∀ l, l ∈ lists → l = None.
Proof.
  induction lists as [|l lists IH]; simpl.
  - split; [| done]. intros _ l Hl. by apply elem_of_nil in Hl.
  - rewrite orb_false_iff, IH, bool_decide_eq_false. split.
    + intros [Hl Hall] l' Hl'. apply elem_of_cons in Hl' as [-> | Hl'].
      * destruct l; [by destruct Hl | done].
      * by apply Hall.
    + intros Hall. split.
      * intros Hl. apply Hl, Hall. by left.
      * intros l' Hl'. apply Hall. by right.
Qed.

Lemma Union_None (lists : list Slice) :
  Union lists = None ↔ ∀ l, l ∈ lists → l = None.
Proof.
  unfold Union. case_decide as Hlen.
  - destruct lists; [| done]. split; [| done].
    intros _ l Hl. by apply elem_of_nil in Hl.
  - destruct (existsb _ lists) eqn:Hex; simpl.
    + split; [done |]. intros Hall. apply all_nil_spec in Hall. congruence.
    + split; [| done]. intros _. by apply all_nil_spec.
Qed.

Lemma Union_Some (lists : list Slice) r :
  Union lists = Some r → r = (addItems (∅, []) (concat (items <$> lists))).2.
Proof.
  unfold Union. case_decide; [done |].
  destruct (existsb _ lists); simpl; [| done].
  intros [= <-]. by rewrite foldl_addItems.
Qed.

Lemma elem_of_concat_items (lists : list Slice) x :
  x ∈ concat (items <$> lists) ↔ ∃ l, l ∈ lists ∧ x ∈ items l.
Proof.
  induction lists as [|l0 lists IH]; simpl.
  - rewrite elem_of_nil. split; [done |].
    intros (l & Hl & _). by apply elem_of_nil in Hl.
  - rewrite elem_of_app, IH. split.
    + intros [Hx | (l & Hl & Hx)].
      * exists l0. split; [by left | done].
      * exists l. split; [by right | done].
    + intros (l & Hl & Hx). apply elem_of_cons in Hl as [-> | Hl].
      * by left.
      * right. by exists l.
Qed.

(** X3: [Union] returns nil exactly when it gets no list or only nil lists;
    otherwise it returns a list without duplicates whose items are the items
    of the lists, and this list is what [Unique] makes of the lists put one
    after the other. *)
Theorem Union_spec (lists : list Slice) :
  (Union lists = None ↔ ∀ l, l ∈ lists → l = None) ∧
  ∀ r, Union lists = Some r →
       NoDup r ∧ (∀ x, x ∈ r ↔ ∃ l, l ∈ lists ∧ x ∈ items l) ∧
       Unique (Some (concat (items <$> lists))) = Some r.
Proof.
  split; [apply Union_None |].
  intros r Hr. apply Union_Some in Hr. subst r.
  destruct (addItems_inv (∅, []) (concat (items <$> lists)) empty_table NoDup_nil_2)
    as (_ & Hnd & Hmem & _).
  split; [done |]. split; [| done].
  intros x. rewrite Hmem, <- elem_of_concat_items. simpl.
  rewrite elem_of_nil. tauto.
Qed.

(** X4: the [Union] of one list is [Unique] of it, and the result for some
    lists is the start of the result for these lists followed by others:
    items are listed in the order in which the lists first show them. *)
Theorem Union_order (lst : Slice) (lists1 lists2 : list Slice) r1 :
  Union [lst] = Unique lst ∧
  (Union lists1 = Some r1 → ∃ r2, Union (lists1 ++ lists2) = Some (r1 ++ r2)).
Proof.
  split.
  - destruct lst as [l|]; [| done]. unfold Union, Unique. simpl. done.
  - intros Hr1.
    destruct (Union (lists1 ++ lists2)) as [r|] eqn:Hr.
    + apply Union_Some in Hr1, Hr. subst r r1.
      rewrite fmap_app, concat_app, addItems_app.
      destruct (addItems_inv (∅, []) (concat (items <$> lists1)) empty_table NoDup_nil_2)
        as (Htab & Hnd & _).
      destruct (addItems_inv _ (concat (items <$> lists2)) Htab Hnd)
        as (_ & _ & _ & new & Hnew & _).
      exists new. by rewrite Hnew.
    + assert (Hn : Union lists1 = None); [| congruence].
      apply Union_None. intros l Hl.
      apply (proj1 (Union_None _) Hr). apply elem_of_app. by left.
Qed.

(** *** [Subtract] and [Intersect] *)

Lemma subtractLoop_filter a (listB : Slice) :
  subtractLoop a listB = filter (λ x, x ∉ items listB) a.
Proof.
  induction a as [|item a IH]; simpl; [done |].
  destruct (Contains listB item) eqn:Hc; simpl.
  - apply Contains_spec in Hc. rewrite filter_cons_False; [done |]. tauto.
  - apply Contains_false in Hc. rewrite filter_cons_True by done. by f_equal.
Qed.

Lemma intersectLoop_filter a (listB : Slice) :
  intersectLoop a listB = filter (λ x, x ∈ items listB) a.
Proof.
  induction a as [|item a IH]; simpl; [done |].
  destruct (Contains listB item) eqn:Hc; simpl.
  - apply Contains_spec in Hc. rewrite filter_cons_True by done. by f_equal.
  - apply Contains_false in Hc. by rewrite filter_cons_False.
Qed.

(** X5: [Subtract] returns nil for a nil first list; otherwise it returns
    the items of the first list that are not items of the second, in their
    order and as often as they are there, so that subtracting nil gives the
    first list back. *)
Theorem Subtract_spec (a : list string) (listB : Slice) :
  Subtract None listB = None ∧
  Subtract (Some a) None = Some a ∧
  Subtract (Some a) listB = Some (filter (λ x, x ∉ items listB) a) ∧
  ∀ x s, Subtract (Some a) listB = Some s → x ∈ s ↔ x ∈ a ∧ x ∉ items listB.
Proof.
  split; [done |]. split; [| split].
  - unfold Subtract. rewrite subtractLoop_filter. f_equal. simpl.
    induction a as [|item a IH]; [done |].
    rewrite filter_cons_True; [by f_equal | apply not_elem_of_nil].
  - unfold Subtract. by rewrite subtractLoop_filter.
  - intros x s. unfold Subtract. rewrite subtractLoop_filter. intros [= <-].
    rewrite list_elem_of_filter. tauto.
Qed.

(** X7: [Intersect] returns nil when one of the lists is nil; otherwise it
    returns the items of the first list that are items of the second, and
    together with what [Subtract] returns these are the items of the first
    list, each as often as it is there; both lists include the result. *)
Theorem Intersect_spec (a b : list string) (listA listB : Slice) :
  Intersect None listB = None ∧ Intersect listA None = None ∧
  ∃ i s,
    Intersect (Some a) (Some b) = Some i ∧ Subtract (Some a) (Some b) = Some s ∧
    i = filter (λ x, x ∈ b) a ∧
    i ++ s ≡ₚ a ∧
    (∀ x, x ∈ i ↔ x ∈ a ∧ x ∈ b) ∧
    Includes (Some a) (Some i) = true ∧ Includes (Some b) (Some i) = true.
Proof.
  split; [done |]. split; [by destruct listA |].
  eexists _, _. split; [done |]. split; [done |].
  rewrite intersectLoop_filter, subtractLoop_filter. simpl.
  split; [done |]. split; [apply filter_app_complement |].
  split; [intros x; rewrite list_elem_of_filter; tauto |].
  split; apply includesLoop_spec; simpl; intros x Hx;
    apply list_elem_of_filter in Hx; tauto.
Qed.

(** *** The lists of the tests *)

Example Union_of_the_tests :
  Union [Some ["b"; "a"; "c"]; Some ["d"; "a"; "b"]; Some ["e"]]%string
  = Some ["b"; "a"; "c"; "d"; "e"]%string
  ∧ Union [] = None ∧ Union [None] = None
  ∧ Union [None; Some ["a"%string]] = Some ["a"%string]
  ∧ Union [None; Some []] = Some [].
Proof. repeat split; by vm_compute. Qed.

Example Unique_of_the_tests :
  Unique (Some ["a"; "b"; "a"; "b"]%string) = Some ["a"; "b"]%string
  ∧ Unique (Some []) = Some [].
Proof. split; by vm_compute. Qed.

Example Subtract_Intersect_of_the_tests :
  Subtract (Some ["a"; "b"]%string) (Some ["b"; "c"]%string) = Some ["a"%string]
  ∧ Intersect (Some ["a"; "b"]%string) (Some ["b"; "c"]%string) = Some ["b"%string]
  ∧ Subtract (Some ["a"; "a"]%string) None = Some ["a"; "a"]%string
  ∧ Intersect (Some ["a"; "b"]%string) None = None
  ∧ Intersect (Some ["a"; "b"]%string) (Some []) = Some [].
Proof. repeat split; by vm_compute. Qed.

Lemma Includes_spec_witness :
  (Includes (Some ["a"; "b"; "c"]%string) (Some ["a"; "b"]%string) = true
   ∧ Includes (Some ["a"; "b"]%string) (Some ["b"]%string) = true) ∧
  Includes (Some ["a"; "b"; "c"]%string) (Some ["b"]%string) = true.
Proof.
  assert (H1 : Includes (Some ["a"; "b"; "c"]%string) (Some ["a"; "b"]%string) = true)
    by reflexivity.
  assert (H2 : Includes (Some ["a"; "b"]%string) (Some ["b"]%string) = true)
    by reflexivity.
  split; [done |].
  destruct (Includes_spec (Some ["a"; "b"; "c"]%string) (Some ["a"; "b"]%string)
              (Some ["b"]%string) "a") as (_ & _ & _ & _ & Htrans).
  by apply Htrans.
Defined.

Lemma Unique_first_occurrence_witness :
  NoDup ["b"; "a"]%string ∧ Unique (Some ["b"; "a"]%string) = Some ["b"; "a"]%string.
Proof.
  assert (Hnd : NoDup ["b"; "a"]%string).
  { apply NoDup_cons. split; [| apply NoDup_singleton].
    intros Hin. apply list_elem_of_singleton in Hin. discriminate. }
  split; [done |].
  destruct (Unique_first_occurrence None ["b"; "a"]%string []) as (_ & Hfix & _).
  by apply Hfix.
Defined.

Lemma Union_spec_witness :
  Union [Some ["b"; "a"]; None; Some ["a"; "c"]]%string = Some ["b"; "a"; "c"]%string ∧
  NoDup ["b"; "a"; "c"]%string ∧
  Unique (Some ["b"; "a"; "a"; "c"]%string) = Some ["b"; "a"; "c"]%string.
Proof.
  assert (Hu : Union [Some ["b"; "a"]; None; Some ["a"; "c"]]%string
               = Some ["b"; "a"; "c"]%string) by (by vm_compute).
  split; [done |].
  destruct (Union_spec [Some ["b"; "a"]; None; Some ["a"; "c"]]%string) as [_ Hsome].
  destruct (Hsome _ Hu) as (Hnd & _ & Huniq). by split.
Defined.

Lemma Union_order_witness :
  Union [Some ["b"; "a"]%string] = Some ["b"; "a"]%string ∧
  ∃ r2, Union [Some ["b"; "a"]; Some ["c"; "b"]]%string = Some (["b"; "a"]%string ++ r2).
Proof.
  assert (Hu : Union [Some ["b"; "a"]%string] = Some ["b"; "a"]%string) by reflexivity.
  split; [done |].
  destruct (Union_order None [Some ["b"; "a"]%string] [Some ["c"; "b"]%string]
              ["b"; "a"]%string) as [_ Hpre].
  by apply Hpre.
Defined.

Lemma Subtract_spec_witness :
  Subtract (Some ["a"; "b"; "a"]%string) (Some ["b"; "c"]%string)
    = Some ["a"; "a"]%string ∧
  ("a"%string ∈ ["a"; "a"]%string
   ↔ "a"%string ∈ ["a"; "b"; "a"]%string ∧ "a"%string ∉ ["b"; "c"]%string).
Proof.
  assert (Hs : Subtract (Some ["a"; "b"; "a"]%string) (Some ["b"; "c"]%string)
               = Some ["a"; "a"]%string) by reflexivity.
  split; [done |].
  destruct (Subtract_spec ["a"; "b"; "a"]%string (Some ["b"; "c"]%string))
    as (_ & _ & _ & Hmem).
  by apply (Hmem "a"%string).
Defined.

End StickListsFacts.

(** ** Package axe: how the methods work together *)

Module AxeMoreFacts.
Import Axe AxeFacts AxeStates.

Section Queue.
Context `{Jobs}.

(** *** [Run] after [Add] *)

Lemma createBoards_named ts (acc : gmap string board) :
  (∀ k task, (k, task) ∈ ts →
             ∃ meta, GetMeta (TaskJob task) = Ok meta ∧ MetaName meta = k) →
  ∃ bs, createBoards ts acc = Ok bs ∧
        ∀ name, bs !! name =
                  if decide (name ∈ ts.*1) then Some {| jobs := ∅ |} else acc !! name.
Proof.
  revert acc. induction ts as [|[k task] ts IH]; intros acc Hnamed.
  - exists acc. split; [done |]. intros name.
    rewrite decide_False; [done | apply not_elem_of_nil].
  - destruct (Hnamed k task) as (meta & Hmeta & Hk); [by left |].
    cbn [createBoards]. rewrite Hmeta. cbn [rbind]. rewrite Hk, fmap_cons. cbn [fst].
    destruct (IH (<[k := {| jobs := ∅ |}]> acc)) as (bs & Hbs & Hlook).
    { intros k' task' Hin. apply Hnamed. by right. }
    exists bs. split; [done |]. intros name. rewrite Hlook.
    destruct (decide (name ∈ ts.*1)) as [Hin | Hin].
    + rewrite decide_True; [done | by right].
    + destruct (decide (name = k)) as [-> | Hne].
      * rewrite lookup_insert_eq. rewrite decide_True; [done | by left].
      * rewrite lookup_insert_ne by done. rewrite decide_False; [done |].
        intros Hin'. apply elem_of_cons in Hin' as [-> | Hin']; done.
Qed.

Lemma Run_all_boards (q : Queue) :
  tasks_named q →
  Run q = Ok {| opts := opts q; tasks := tasks q;
                boards := Some ((λ _, {| jobs := ∅ |}) <$> tasks q) |}.
Proof.
  intros Hnamed. unfold Run.
  destruct (createBoards_named (map_to_list (tasks q)) ∅) as (bs & Hbs & Hlook).
  { intros k task Hin. apply Hnamed. by apply elem_of_map_to_list. }
  rewrite Hbs. simpl. do 3 f_equal. apply map_eq. intros name.
  rewrite Hlook, lookup_fmap.
  destruct (tasks q !! name) as [task|] eqn:Htask; simpl.
  - rewrite decide_True; [done |]. apply list_elem_of_fmap.
    exists (name, task). split; [done |]. by apply elem_of_map_to_list.
  - rewrite decide_False; [by rewrite lookup_empty |].
    intros Hin. apply list_elem_of_fmap in Hin as ([k task] & -> & Hin).
    apply elem_of_map_to_list in Hin. simpl in Htask. congruence.
Qed.

(** X8: on every queue that a program gets to, [Run] returns: it leaves the
    options and the tasks as they are and makes exactly one board for every
    registered task, each of them empty, also when the queue was running
    and had jobs on its boards. *)
Theorem Run_makes_empty_boards (q : Queue) :
  reachable q →
  ∃ q', Run q = Ok q' ∧ opts q' = opts q ∧ tasks q' = tasks q ∧
        boards q' = Some ((λ _, {| jobs := ∅ |}) <$> tasks q) ∧
        ∀ name, lookupBoard q' name
                = match tasks q !! name with
                  | Some _ => Some {| jobs := ∅ |}
                  | None => None
                  end.
Proof.
  intros Hreach. destruct (reachable_inv q Hreach) as (Hnamed & _).
  eexists. split; [by apply Run_all_boards |]. simpl.
  split; [done |]. split; [done |]. split; [done |].
  intros name. unfold lookupBoard. simpl. rewrite lookup_fmap.
  by destruct (tasks q !! name).
Qed.

(** *** [NewQueue] and the lag of [update] *)

Lemma NewQueue_MaxLag o :
  MaxLag (opts (NewQueue o)) ≤ 0 ↔ MaxLag o < 0.
Proof.
  unfold NewQueue. simpl. case_decide as Hz.
  - rewrite Hz. unfold Millisecond. lia.
  - lia.
Qed.

(** X9: [NewQueue] only replaces a [MaxLag] of zero, so a negative one stays;
    on a queue with the options of [NewQueue], [update] with a job in one of
    the three states whose task has a board panics exactly when the
    [MaxLag] that was asked for is negative. *)
Theorem update_panics_iff_negative_lag o (q : Queue) job rnd b :
  opts q = opts (NewQueue o) →
  lookupBoard q (Name job) = Some b →
  dispatchable (JobStatus job) = true →
  panics (update q job rnd) ↔ MaxLag o < 0.
Proof.
  intros Hopts Hb Hd. rewrite <- NewQueue_MaxLag, <- Hopts. split.
  - intros Hp. destruct (decide (MaxLag (opts q) ≤ 0)) as [Hle | Hgt]; [done |].
    destruct (update_returns q job rnd) as [q' Hq']; [lia |].
    destruct Hp as [msg Hmsg]. congruence.
  - by apply (update_panics_without_lag q job rnd b).
Qed.

(** *** [get] after [get] *)


(** *** An event followed by the end of the job *)

Lemma setBoard_setBoard (q : Queue) name b1 b2 :
  setBoard (setBoard q name b1) name b2 = setBoard q name b2.
Proof.
  unfold setBoard. simpl. f_equal.
  destruct (boards q) as [bs|]; simpl; [| done].
  by rewrite insert_insert_eq.
Qed.

(** X11: when [update] has handled an event for a job and then handles an
    event for the same job with the status Completed or Cancelled, the queue
    is as if only the second event had come: the job has left the board. *)
Theorem update_terminal_erases (q : Queue) ev fin rnd1 rnd2 q1 q2 :
  Name fin = Name ev → DocID fin = DocID ev →
  terminal (JobStatus fin) = true →
  update q ev rnd1 = Ok q1 → update q1 fin rnd2 = Ok q2 →
  update q fin rnd2 = Ok q2 ∧
  ∀ b, lookupBoard q2 (Name ev) = Some b → jobs b !! DocID ev = None.
Proof.
  intros Hname Hid Hterm Hup1 Hup2.
  assert (Hsame : update q fin rnd2 = Ok q2).
  { destruct (update_cases q ev rnd1 q1 Hup1)
      as [[_ ->] | [(b & L & Hb & _ & _ & ->) | [(b & Hb & _ & ->) | (_ & _ & _ & ->)]]];
      [done | | | done].
    - rewrite (update_terminal _ fin rnd2 _
                 (eq_trans (f_equal _ Hname)
                    (lookupBoard_setBoard_eq q (Name ev) _ (mk_is_Some _ _ Hb))) Hterm)
        in Hup2.
      rewrite Hname, setBoard_setBoard in Hup2. simpl in Hup2.
      rewrite Hid, delete_insert_eq in Hup2.
      rewrite <- Hup2. rewrite <- Hname in Hb.
      rewrite (update_terminal q fin rnd2 b Hb Hterm). by rewrite Hname, Hid.
    - rewrite (update_terminal _ fin rnd2 _
                 (eq_trans (f_equal _ Hname)
                    (lookupBoard_setBoard_eq q (Name ev) _ (mk_is_Some _ _ Hb))) Hterm)
        in Hup2.
      rewrite Hname, setBoard_setBoard in Hup2. simpl in Hup2.
      rewrite Hid, delete_delete_eq in Hup2.
      rewrite <- Hup2. rewrite <- Hname in Hb.
      rewrite (update_terminal q fin rnd2 b Hb Hterm). by rewrite Hname, Hid. }
  split; [done |]. intros b Hb.
  destruct (lookupBoard q (Name fin)) as [b0|] eqn:Hb0.
  - rewrite (update_terminal q fin rnd2 b0 Hb0 Hterm) in Hsame. injection Hsame as <-.
    rewrite <- Hname in Hb.
    rewrite lookupBoard_setBoard_eq in Hb by (by rewrite Hb0).
    injection Hb as <-. simpl. rewrite <- Hid. apply lookup_delete_eq.
  - rewrite (update_no_board q fin rnd2 Hb0) in Hsame. injection Hsame as <-.
    rewrite <- Hname in Hb. congruence.
Qed.

(** *** [Add] after [Add] *)

(** X12: two tasks that can be added one after the other can be added in the
    other order as well, and the queue is the same in the end. *)
Theorem Add_commutes (q : Queue) task1 task2 q1 q12 :
  Add q task1 = Ok q1 → Add q1 task2 = Ok q12 →
  ∃ q2, Add q task2 = Ok q2 ∧ Add q2 task1 = Ok q12.
Proof.
  intros Hadd1 Hadd2.
  apply Add_ok in Hadd1 as (Hbs & t1 & m1 & Hp1 & Hm1 & Hn1 & ->).
  apply Add_ok in Hadd2 as (_ & t2 & m2 & Hp2 & Hm2 & Hn2 & ->).
  simpl in *.
  assert (Hne : MetaName m1 ≠ MetaName m2).
  { intros Heq. rewrite <- Heq, lookup_insert_eq in Hn2. done. }
  rewrite lookup_insert_ne in Hn2 by done.
  eexists. split.
  - apply Add_ok. split; [done |]. by exists t2, m2.
  - apply Add_ok. simpl. split; [done |]. exists t1, m1.
    split; [done |]. split; [done |].
    split; [by rewrite lookup_insert_ne |].
    f_equal. by apply insert_insert_ne.
Qed.

(** *** The boards of a running queue *)

Lemma setBoard_running (q : Queue) name b : running (setBoard q name b) ↔ running q.
Proof.
  unfold running, setBoard. simpl.
  destruct (boards q); simpl; split; intros [bs Hbs]; by eauto.
Qed.

Lemma setBoard_dom (q : Queue) name b name' :
  is_Some (lookupBoard q name) →
  is_Some (lookupBoard (setBoard q name b) name') ↔ is_Some (lookupBoard q name').
Proof.
  intros Hq. rewrite lookupBoard_setBoard by done.
  case_decide as Hn; [| done]. subst name'. split; [done | by eexists].
Qed.

Lemma update_dom (q : Queue) job rnd q' :
  update q job rnd = Ok q' →
  (running q' ↔ running q) ∧
  ∀ name, is_Some (lookupBoard q' name) ↔ is_Some (lookupBoard q name).
Proof.
  intros Hup.
  destruct (update_cases q job rnd q' Hup)
    as [[_ ->] | [(b & L & Hb & _ & _ & ->) | [(b & Hb & _ & ->) | (_ & _ & _ & ->)]]];
    [done | | | done];
    (split; [apply setBoard_running | intros name; apply setBoard_dom; by rewrite Hb]).
Qed.

Lemma get_dom (q : Queue) name now order q' r :
  get q name now order = Ok (q', r) →
  opts q' = opts q ∧ tasks q' = tasks q ∧
  (running q' ↔ running q) ∧
  ∀ name', is_Some (lookupBoard q' name') ↔ is_Some (lookupBoard q name').
Proof.
  intros Hget.
  destruct (get_cases q name now order q' r Hget)
    as (b & Hb & [(k & job & _ & _ & Hq') | Hq']).
  - unfold claimed in Hq'. injection Hq' as -> _.
    split; [done |]. split; [done |].
    split; [apply setBoard_running |].
    intros name'. apply setBoard_dom. by rewrite Hb.
  - by injection Hq' as -> _.
Qed.

(** X13: however many calls of [update] and [get] a queue serves, its
    options and its tasks stay as they are, it stays running or not running,
    and no board is added or dropped: the names that have a board are the
    same before and after. *)
Theorem serves_keeps_boards (q q' : Queue) :
  serves q q' →
  opts q' = opts q ∧ tasks q' = tasks q ∧ (running q' ↔ running q) ∧
  ∀ name, is_Some (lookupBoard q' name) ↔ is_Some (lookupBoard q name).
Proof.
  induction 1 as [q | q job rnd q1 q' Hup _ IH | q name now order q1 r q' Hget _ IH].
  - done.
  - destruct IH as (Ho & Ht & Hr & Hd).
    destruct (update_opts q job rnd q1 Hup) as [Ho1 Ht1].
    destruct (update_dom q job rnd q1 Hup) as [Hr1 Hd1].
    split; [congruence |]. split; [congruence |]. split; [tauto |].
    intros n. by rewrite Hd, Hd1.
  - destruct IH as (Ho & Ht & Hr & Hd).
    destruct (get_dom q name now order q1 r Hget) as (Ho1 & Ht1 & Hr1 & Hd1).
    split; [congruence |]. split; [congruence |]. split; [tauto |].
    intros n. by rewrite Hd, Hd1.
Qed.

(** *** What [get] returns *)

Lemma reachable_named_cover (q : Queue) :
  reachable q → boards_named q ∧ boards_cover q.
Proof.
  induction 1 as [o | q task q' Hreach IH Hadd | q q' Hreach IH Hrun
                  | q job rnd q' Hreach IH Hup | q name now order q' r Hreach IH Hget].
  - split.
    + intros name b id m Hb. by unfold lookupBoard in Hb.
    + by intros [bs Hbs].
  - apply Add_ok in Hadd as (Hbs & task' & meta & _ & _ & _ & ->). split.
    + intros name b id m Hb. unfold lookupBoard in Hb. simpl in Hb.
      by rewrite Hbs in Hb.
    + intros [bs Hbs']. simpl in Hbs'. congruence.
  - destruct (reachable_inv q Hreach) as (Hnamed & _).
    rewrite (Run_all_boards q Hnamed) in Hrun. injection Hrun as <-. split.
    + intros name b id m Hb Hm. unfold lookupBoard in Hb. simpl in Hb.
      rewrite lookup_fmap in Hb. destruct (tasks q !! name); [| done].
      injection Hb as <-. simpl in Hm. by rewrite lookup_empty in Hm.
    + intros _ name [task Htask]. unfold lookupBoard. simpl in *.
      rewrite lookup_fmap, Htask. by eexists.
  - destruct IH as [Hnamed Hcover]. split.
    + destruct (update_cases q job rnd q' Hup)
        as [[_ ->] | [(b0 & L & Hb0 & _ & _ & ->) | [(b0 & Hb0 & _ & ->) | (_ & _ & _ & ->)]]];
        [done | | | done]; intros name b id m Hb Hm;
        (destruct (setBoard_entry _ _ _ _ _ _ _ _ Hb0 Hb Hm) as [[-> Hm'] | Hb'];
         [| by apply (Hnamed _ _ _ _ Hb' Hm)]); simpl in Hm'.
      * destruct (decide (DocID job = id)) as [<- | Hid].
        -- rewrite lookup_insert_eq in Hm'. by injection Hm' as <-.
        -- rewrite lookup_insert_ne in Hm' by done. by apply (Hnamed _ _ _ _ Hb0 Hm').
      * apply lookup_delete_Some in Hm' as [_ Hm'].
        by apply (Hnamed _ _ _ _ Hb0 Hm').
    + destruct (update_opts q job rnd q' Hup) as [_ Ht].
      destruct (update_dom q job rnd q' Hup) as [Hr Hd].
      intros Hrun name Hname. rewrite Hd. apply Hcover; [tauto | by rewrite <- Ht].
  - destruct IH as [Hnamed Hcover].
    destruct (get_dom q name now order q' r Hget) as (_ & Ht & Hr & Hd). split.
    + destruct (get_cases q name now order q' r Hget)
        as (b0 & Hb0 & [(k & job & Hk & _ & Hq') | Hq']);
        [| by injection Hq' as -> _].
      unfold claimed in Hq'. injection Hq' as -> _.
      intros name' b id m Hb Hm.
      destruct (setBoard_entry _ _ _ _ _ _ _ _ Hb0 Hb Hm) as [[-> Hm'] | Hb'];
        [| by apply (Hnamed _ _ _ _ Hb' Hm)].
      simpl in Hm'. destruct (decide (k = id)) as [<- | Hid].
      * rewrite lookup_insert_eq in Hm'. injection Hm' as <-. simpl.
        by apply (Hnamed _ _ _ _ Hb0 Hk).
      * rewrite lookup_insert_ne in Hm' by done. by apply (Hnamed _ _ _ _ Hb0 Hm').
    + intros Hrun name' Hname. rewrite Hd. apply Hcover; [tauto | by rewrite <- Ht].
Qed.

(** X14: on a queue that a program gets to, a job that [get] returns for a
    name is on the board of that name under the returned id, carries that
    name, is Enqueued, Dequeued or Failed, and was available before [now]. *)
Theorem get_returns_job_of_task (q : Queue) name now order q' id :
  reachable q →
  get q name now order = Ok (q', (id, true)) →
  ∃ b job,
    lookupBoard q name = Some b ∧ jobs b !! id = Some job ∧
    DocID job = id ∧ Name job = name ∧
    (JobStatus job = StatusEnqueued ∨ JobStatus job = StatusDequeued
     ∨ JobStatus job = StatusFailed) ∧
    Available job < now.
Proof.
  intros Hreach Hget.
  destruct (reachable_inv q Hreach) as (_ & _ & Hok & Hkeyed).
  destruct (reachable_named_cover q Hreach) as [Hnamed _].
  destruct (get_cases q name now order q' _ Hget)
    as (b & Hb & [(k & job & Hk & Hlt & Hq') | Hq']); [| by injection Hq'].
  unfold claimed in Hq'. injection Hq' as _ Hid.
  pose proof (Hkeyed name b k job Hb Hk) as Hkid.
  exists b, job. split; [done |]. split; [congruence |]. split; [done |].
  split; [by apply (Hnamed name b k job) |].
  split; [by apply (Hok name b k job) | done].
Qed.

(** X15: on a queue that a program gets to, [get] panics exactly when the
    queue is not running or no task is registered under the name; for the
    name of a registered task of a running queue it returns. *)
Theorem get_panics_iff_no_board (q : Queue) name now order :
  reachable q →
  (panics (get q name now order) ↔ ¬ running q ∨ tasks q !! name = None) ∧
  (get q name now order = Panic nilDeref ∨ returns (get q name now order)).
Proof.
  intros Hreach.
  destruct (reachable_inv q Hreach) as (_ & Hreg & _ & _).
  destruct (reachable_named_cover q Hreach) as [_ Hcover].
  destruct (lookupBoard q name) as [b|] eqn:Hb.
  - assert (Hret : returns (get q name now order)).
    { destruct (get_hit_or_miss q name now order b Hb)
        as [(k & job & _ & _ & _ & ->) | [_ ->]]; by eexists. }
    split; [| by right]. split.
    + intros Hp. apply panics_not_returns in Hp. done.
    + intros [Hnr | Hnone].
      * destruct Hnr. apply lookupBoard_Some in Hb as (bs & Hbs & _). by exists bs.
      * destruct (Hreg name b Hb) as [task Htask]. congruence.
  - rewrite (get_no_board q name now order Hb). split; [| by left].
    split; [| intros _; by eexists]. intros _.
    destruct (boards q) as [bs|] eqn:Hbs; [| left; intros [bs' Hbs']; congruence].
    right. destruct (tasks q !! name) as [task|] eqn:Htask; [| done].
    destruct (Hcover (mk_is_Some _ _ Hbs) name (mk_is_Some _ _ Htask)) as [b' Hb'].
    congruence.
Qed.

End Queue.

End AxeMoreFacts.

(** ** The methods together on the jobs of the tests *)

Module AxeMoreSample.
Import Axe AxeFacts AxeStates AxeMoreFacts AxeSample.

Lemma sampleRunning_reachable : reachable sampleRunning.
Proof.
  apply (reach_update (H := testJobs)
           (sampleQueue {[ "test"%string := {| jobs := {[ 1%N := sampleFirst ]} |} ]})
           sampleSecond 0); [| by vm_compute].
  apply (reach_update (H := testJobs) sampleStarted sampleFirst 0); [| by vm_compute].
  apply sampleStarted_reachable.
Qed.


Lemma Run_makes_empty_boards_witness :
  reachable sampleRunning ∧
  ∃ q', Run sampleRunning = Ok q' ∧
        lookupBoard q' "test" = Some {| jobs := ∅ |} ∧
        lookupBoard q' "bson" = None.
Proof.
  split; [apply sampleRunning_reachable |].
  destruct (Run_makes_empty_boards sampleRunning sampleRunning_reachable)
    as (q' & Hrun & _ & _ & _ & Hall).
  exists q'. split; [done |].
  split; [exact (Hall "test"%string) | exact (Hall "bson"%string)].
Defined.

Lemma update_panics_iff_negative_lag_witness :
  (opts sampleBroken = opts (NewQueue (H := testJobs) sampleNegativeLag)
   ∧ lookupBoard sampleBroken (Name sampleCreated) = Some {| jobs := ∅ |}
   ∧ dispatchable (JobStatus sampleCreated) = true) ∧
  panics (update sampleBroken sampleCreated 7).
Proof.
  split; [by repeat split |].
  apply (update_panics_iff_negative_lag sampleNegativeLag sampleBroken sampleCreated 7
           {| jobs := ∅ |}); reflexivity.
Defined.


Lemma update_terminal_erases_witness :
  let q1 := setBoard sampleStarted "test"
              {| jobs := {[ 3%N := setAvailable sampleCreated 27 ]} |} in
  (Name sampleCancelled = Name sampleCreated
   ∧ DocID sampleCancelled = DocID sampleCreated
   ∧ terminal (JobStatus sampleCancelled) = true
   ∧ update sampleStarted sampleCreated 7 = Ok q1
   ∧ update q1 sampleCancelled 9 = Ok sampleStarted) ∧
  update sampleStarted sampleCancelled 9 = Ok sampleStarted.
Proof.
  intros q1.
  assert (H1 : update sampleStarted sampleCreated 7 = Ok q1) by (by vm_compute).
  assert (H2 : update q1 sampleCancelled 9 = Ok sampleStarted) by (by vm_compute).
  split; [by repeat split |].
  apply (update_terminal_erases sampleStarted sampleCreated sampleCancelled 7 9 q1
           sampleStarted eq_refl eq_refl eq_refl H1 H2).
Defined.

Lemma Add_commutes_witness :
  (Add sampleNew (sampleTask testJob) = Ok (sampleOne testJob "test")
   ∧ Add (sampleOne testJob "test") (sampleTask bsonJob) = Ok sampleTwo) ∧
  ∃ q2, Add sampleNew (sampleTask bsonJob) = Ok q2
        ∧ Add q2 (sampleTask testJob) = Ok sampleTwo.
Proof.
  assert (H1 : Add sampleNew (sampleTask testJob) = Ok (sampleOne testJob "test"))
    by (by vm_compute).
  assert (H2 : Add (sampleOne testJob "test") (sampleTask bsonJob) = Ok sampleTwo)
    by (by vm_compute).
  split; [done |].
  apply (Add_commutes sampleNew (sampleTask testJob) (sampleTask bsonJob)
           (sampleOne testJob "test") sampleTwo H1 H2).
Defined.

Lemma serves_keeps_boards_witness :
  serves sampleOverdue sampleOverdue2 ∧
  tasks sampleOverdue2 = tasks sampleOverdue ∧
  (is_Some (lookupBoard sampleOverdue2 "test") ↔ is_Some (lookupBoard sampleOverdue "test")).
Proof.
  assert (Hs : serves sampleOverdue sampleOverdue2).
  { apply (serves_get (H := testJobs) sampleOverdue "test" 100 [1%N; 2%N]
             sampleOverdue1 (1%N, true)); [by vm_compute |].
    apply (serves_get (H := testJobs) sampleOverdue1 "test" 100 [1%N; 2%N]
             sampleOverdue2 (1%N, true)); [by vm_compute |].
    apply serves_refl. }
  split; [done |].
  destruct (serves_keeps_boards sampleOverdue sampleOverdue2 Hs) as (_ & Ht & _ & Hd).
  split; [done | apply Hd].
Defined.

Lemma get_returns_job_of_task_witness :
  (reachable sampleRunning
   ∧ get sampleRunning "test" 10 [1%N; 2%N]
     = Ok ((claimed sampleRunning "test" sampleBoard 1%N sampleFirst).1, (1%N, true))) ∧
  ∃ b job,
    lookupBoard sampleRunning "test" = Some b ∧ jobs b !! 1%N = Some job ∧
    DocID job = 1%N ∧ Name job = "test"%string ∧
    (JobStatus job = StatusEnqueued ∨ JobStatus job = StatusDequeued
     ∨ JobStatus job = StatusFailed) ∧
    Available job < 10.
Proof.
  assert (Hget : get sampleRunning "test" 10 [1%N; 2%N]
                 = Ok ((claimed sampleRunning "test" sampleBoard 1%N sampleFirst).1,
                       (1%N, true))) by (by vm_compute).
  split; [split; [apply sampleRunning_reachable | done] |].
  apply (get_returns_job_of_task sampleRunning "test" 10 [1%N; 2%N] _ 1%N
           sampleRunning_reachable Hget).
Defined.

Lemma get_panics_iff_no_board_witness :
  reachable sampleStarted ∧
  tasks sampleStarted !! "bson"%string = None ∧
  panics (get sampleStarted "bson" 10 []) ∧
  returns (get sampleStarted "test" 10 []).
Proof.
  split; [apply sampleStarted_reachable |]. split; [reflexivity |].
  destruct (get_panics_iff_no_board sampleStarted "bson" 10 [] sampleStarted_reachable)
    as [Hiff _].
  destruct (get_panics_iff_no_board sampleStarted "test" 10 [] sampleStarted_reachable)
    as [Hiff' [Hp | Hr]].
  - split; [apply Hiff; by right |].
    assert (Hpan : panics (get sampleStarted "test" 10 [])) by (rewrite Hp; by eexists).
    apply Hiff' in Hpan as [Hnr | Hnone]; [| discriminate].
    destruct Hnr. by eexists.
  - split; [apply Hiff; by right | done].
Defined.

End AxeMoreSample.

(** ** Package stick: the other methods of a coding *)

Module StickMoreFacts.
Import Stick StickMore.

Section Coding.
Context {Value : Type} `{!Codecs Value} `{!NumberDecoder Value} {lowering : Lowering}.

(** X16: [SafeUnmarshal] only differs from [Unmarshal] for JSON: for every
    other coding the two do the same, and so [SafeUnmarshal] panics with the
    same message on a coding that is neither JSON nor BSON. *)
Theorem SafeUnmarshal_spec (c : Coding) (b : Bytes) (out : Value) :
  (c ≠ JSON → SafeUnmarshal c b out = Unmarshal c b out) ∧
  (c ≠ JSON → c ≠ BSON → SafeUnmarshal c b out = Panic (unknownCoding c)).
Proof.
  split.
  - intros Hj. unfold SafeUnmarshal, Unmarshal. by rewrite !(decide_False _ _ Hj).
  - intros Hj Hb. unfold SafeUnmarshal. by rewrite !decide_False.
Qed.

Lemma Marshal_unknown (c : Coding) (v : Value) :
  c ≠ JSON → c ≠ BSON → Marshal c v = Panic (unknownCoding c).
Proof. intros Hj Hb. unfold Marshal. by rewrite !decide_False. Qed.

(** X17: [Transfer] panics on a coding that is neither JSON nor BSON; when
    [Marshal] returns an error it returns that error and leaves the value
    behind [out] as it is, without a call of [Unmarshal]; and when [Marshal]
    returns bytes without an error it returns what [Unmarshal] makes of
    them. *)
Theorem Transfer_spec (c : Coding) (input out : Value) :
  (c ≠ JSON → c ≠ BSON → Transfer c input out = Panic (unknownCoding c)) ∧
  (∀ data e, Marshal c input = Ok (data, Some e) →
             Transfer c input out = Ok (out, Some e)) ∧
  (∀ data, Marshal c input = Ok (data, None) →
           Transfer c input out = Unmarshal c data out).
Proof.
  split; [| split].
  - intros Hj Hb. unfold Transfer. by rewrite (Marshal_unknown c input Hj Hb).
  - intros data e Hm. unfold Transfer. by rewrite Hm.
  - intros data Hm. unfold Transfer. rewrite Hm. simpl.
    destruct (Unmarshal c data out) as [[v [e|]]|msg]; done.
Qed.

(** *** [GetKey] *)

Lemma Split_head (s : string) (sep : Ascii.ascii) :
  ∃ part parts,
    Split s sep = part :: parts ∧ occurs sep part = false ∧
    (s = part ∨ ∃ rest, s = part +:+ String sep rest).
Proof.
  induction s as [|a s (part & parts & Hsplit & Hfree & Hs)]; simpl.
  - exists EmptyString, []. split; [done |]. split; [done | by left].
  - case_decide as Ha.
    + subst a. exists EmptyString, (Split s sep). split; [done |].
      split; [done |]. right. by exists s.
    + rewrite Hsplit. exists (String a part), parts. split; [done |]. split.
      * simpl. by rewrite decide_False.
      * destruct Hs as [-> | [rest ->]]; [by left |]. right. by exists rest.
Qed.

(** X18: for the tag ["-"] [GetKey] returns the empty key; for any other tag
    it returns the part of the tag before the first comma (the whole tag when
    it has no comma), and when that part is empty the name of the field, in
    lower case for BSON. *)
Theorem GetKey_spec (c : Coding) (field : StructField) :
  (TagGet field c = "-"%string → GetKey c field = EmptyString) ∧
  (TagGet field c ≠ "-"%string →
   ∃ part,
     occurs comma part = false ∧
     (TagGet field c = part ∨ ∃ rest, TagGet field c = part +:+ String comma rest) ∧
     GetKey c field =
       if decide (part = EmptyString)
       then (if decide (c = BSON) then ToLower (FieldName field) else FieldName field)
       else part).
Proof.
  split.
  - intros Htag. unfold GetKey. by rewrite decide_True.
  - intros Htag. unfold GetKey. rewrite decide_False by done.
    destruct (Split_head (TagGet field c) comma) as (part & parts & -> & Hfree & Hs).
    exists part. split; [done |]. split; [done |].
    destruct part as [|a part].
    + rewrite decide_False by (simpl; lia). reflexivity.
    + rewrite decide_True by (simpl; lia). reflexivity.
Qed.

End Coding.

Example GetKey_of_tags :
  GetKey (lowering := asciiLowering) JSON
    (taggedField "TextBody" "text-body,omitempty" "text_body") = "text-body"%string
  ∧ GetKey (lowering := asciiLowering) BSON
      (taggedField "TextBody" "text-body,omitempty" "text_body") = "text_body"%string
  ∧ GetKey (lowering := asciiLowering) JSON
      (taggedField "Published" EmptyString EmptyString) = "Published"%string
  ∧ GetKey (lowering := asciiLowering) BSON
      (taggedField "Published" ",omitempty" ",omitempty") = "published"%string
  ∧ GetKey (lowering := asciiLowering) JSON
      (taggedField "Comments" "-" "-") = EmptyString
  ∧ GetKey (lowering := asciiLowering) JSON
      (taggedField "Dash" "-," EmptyString) = "-"%string.
Proof. repeat split; reflexivity. Qed.

Example Split_of_tags :
  Split "a,b,,c" comma = ["a"; "b"; EmptyString; "c"]%string
  ∧ Split EmptyString comma = [EmptyString]
  ∧ Split "," comma = [EmptyString; EmptyString].
Proof. repeat split; reflexivity. Qed.

Lemma SafeUnmarshal_spec_witness :
  BSON ≠ JSON ∧
  SafeUnmarshal (Codecs0 := plainCodecs) (NumberDecoder0 := plainNumberDecoder)
    BSON [] []
  = Unmarshal (Codecs0 := plainCodecs) BSON [] [].
Proof.
  assert (Hne : BSON ≠ JSON) by discriminate.
  split; [done |].
  destruct (SafeUnmarshal_spec (Codecs0 := plainCodecs)
              (NumberDecoder0 := plainNumberDecoder) BSON [] []) as [Hsame _].
  by apply Hsame.
Defined.

Lemma Transfer_spec_witness :
  Marshal (Codecs0 := plainCodecs) JSON [] = Ok ([], None) ∧
  Transfer (Codecs0 := plainCodecs) JSON [] []
  = Unmarshal (Codecs0 := plainCodecs) JSON [] [].
Proof.
  assert (Hm : Marshal (Codecs0 := plainCodecs) JSON [] = Ok ([], None)) by reflexivity.
  split; [done |].
  destruct (Transfer_spec (Codecs0 := plainCodecs) JSON [] []) as (_ & _ & Hok).
  by apply (Hok []).
Defined.

Lemma GetKey_spec_witness :
  TagGet (taggedField "TextBody" "text-body,omitempty" "text_body") JSON ≠ "-"%string ∧
  ∃ part,
    occurs comma part = false ∧
    (("text-body,omitempty"%string = part)
     ∨ ∃ rest, "text-body,omitempty"%string = part +:+ String comma rest) ∧
    GetKey (lowering := asciiLowering) JSON
      (taggedField "TextBody" "text-body,omitempty" "text_body")
    = if decide (part = EmptyString) then "TextBody"%string else part.
Proof.
  assert (Hne : TagGet (taggedField "TextBody" "text-body,omitempty" "text_body") JSON
                ≠ "-"%string) by discriminate.
  split; [done |].
  destruct (GetKey_spec (lowering := asciiLowering) JSON
              (taggedField "TextBody" "text-body,omitempty" "text_body")) as [_ Hkey].
  destruct (Hkey Hne) as (part & Hfree & Htag & Hget).
  exists part. split; [done |]. split; [done |]. done.
Defined.

End StickMoreFacts.

(** ** Package coal: the base of a model *)

Module CoalBaseFacts.
Import CoalBase.

Section Base.
Context {Value Ty : Type} `{!Reflection Value Ty}.

Lemma MustSet_ok (b : Model) name (v : Value) b' :
  MustSet b name v = Ok b' →
  ∃ mt field ty old,
    meta b = Some mt ∧ Fields mt !! name = Some field ∧
    slots b !! index field = Some (ty, old) ∧ assignable v ty = true ∧
    b' = {| DocID := DocID b;
            slots := <[index field := (ty, v)]> (slots b);
            meta := meta b |}.
Proof.
  unfold MustSet. destruct (meta b) as [mt|] eqn:Hmeta; [| done].
  destruct (Fields mt !! name) as [field|] eqn:Hfield; [| done].
  destruct (slots b !! index field) as [[ty old]|] eqn:Hslot; [| done].
  destruct (assignable v ty) eqn:Hassign; [| done].
  intros [= <-]. exists mt, field, ty, old. repeat split; assumption.
Qed.

(** X19: [MustGet] and [MustSet] panic with the same message, which names the
    field and the model, for a field that the meta does not have; and when
    [MustSet] returns, [MustGet] of the field returns the value that was
    set, the id, the meta and the number of fields are as before, and
    [MustGet] of any field at another index returns what it returned
    before. *)
Theorem MustSet_MustGet (b : Model) name (v : Value) :
  (∀ mt, meta b = Some mt → Fields mt !! name = None →
         MustGet b name = Panic (notFound name mt) ∧
         MustSet b name v = Panic (notFound name mt)) ∧
  (∀ b', MustSet b name v = Ok b' →
         MustGet b' name = Ok v ∧
         ID b' = ID b ∧ meta b' = meta b ∧ length (slots b') = length (slots b) ∧
         ∀ name',
           (∀ mt f f', meta b = Some mt → Fields mt !! name = Some f →
                       Fields mt !! name' = Some f' → index f' ≠ index f) →
           MustGet b' name' = MustGet b name').
Proof.
  split.
  - intros mt Hmeta Hfield. unfold MustGet, MustSet. by rewrite Hmeta, Hfield.
  - intros b' Hset.
    apply MustSet_ok in Hset as (mt & field & ty & old & Hmeta & Hfield & Hslot & _ & ->).
    split; [| split; [done | split; [done | split]]].
    + unfold MustGet. simpl. rewrite Hmeta, Hfield.
      rewrite list_lookup_insert_eq; [done |]. by apply lookup_lt_Some in Hslot.
    + simpl. by rewrite length_insert.
    + intros name' Hother. unfold MustGet. simpl. rewrite Hmeta.
      destruct (Fields mt !! name') as [field'|] eqn:Hfield'; [| done].
      rewrite list_lookup_insert_ne; [done |].
      intros Heq. by apply (Hother mt field field' Hmeta Hfield Hfield').
Qed.

End Base.

(** The helpers on the model of the tests: a field can be set and read, a
    missing field and a value of another type make [MustSet] panic. *)
Example MustSet_of_the_tests :
  (let! p := MustSet (Reflection0 := postReflection) post "TextBody" (VString "3") in
   MustGet p "TextBody") = Ok (VString "3")
  ∧ MustGet post "missing"
    = Panic ("coal: field " +:+ dquote +:+ "missing" +:+ dquote +:+ " not found on "
             +:+ dquote +:+ "Post" +:+ dquote)
  ∧ MustSet (Reflection0 := postReflection) post "TextBody" (VBool true)
    = Panic notAssignable.
Proof. repeat split; by vm_compute. Qed.

Lemma MustSet_MustGet_witness :
  let p := {| DocID := DocID post;
              slots := [(TString, VString "Hello"); (TBool, VBool true);
                        (TString, VString EmptyString)];
              meta := meta post |} in
  MustSet (Reflection0 := postReflection) post "Published" (VBool true) = Ok p ∧
  MustGet p "Published" = Ok (VBool true) ∧
  MustGet p "Title" = MustGet post "Title".
Proof.
  intros p.
  assert (Hset : MustSet (Reflection0 := postReflection) post "Published" (VBool true)
                 = Ok p) by (by vm_compute).
  split; [done |].
  destruct (MustSet_MustGet (Reflection0 := postReflection) post "Published" (VBool true))
    as [_ Hok].
  destruct (Hok p Hset) as (Hget & _ & _ & _ & Hother).
  split; [done |]. apply Hother.
  intros mt f f' [= <-] Hf Hf'. vm_compute in Hf, Hf'.
  injection Hf as <-. injection Hf' as <-. discriminate.
Defined.

End CoalBaseFacts.

(** ** Package coal: the catalog and its indexes *)

Module CoalCatalogFacts.
Import CoalCatalog.

Section Catalog.
Context `{Models}.

(** *** [Add] and [Find] *)

Lemma addModels_ok (ms : gmap string Model) new ms' :
  addModels ms new = Ok ms' →
  ∃ names,
    pluralNames new = Ok names ∧ NoDup names ∧
    (∀ n, n ∈ names → ms !! n = None) ∧
    ∀ n m, ms' !! n = Some m ↔
           ms !! n = Some m ∨ ∃ i, names !! i = Some n ∧ new !! i = Some m.
Proof.
  revert ms. induction new as [|model new IH]; intros ms; simpl.
  - intros [= <-]. exists []. split; [done |]. split; [apply NoDup_nil_2 |].
    split; [intros n Hn; by apply elem_of_nil in Hn |].
    intros n m. split; [by left |]. intros [Hm | (i & Hi & _)]; [done |].
    by rewrite lookup_nil in Hi.
  - intros Hadd. apply rbind_ok in Hadd as (name & Hname & Hadd).
    destruct (ms !! name) as [old|] eqn:Hfree; [done |].
    destruct (IH _ Hadd) as (names & Hnames & Hnd & Hdisj & Hlook).
    exists (name :: names). rewrite Hname, Hnames. simpl.
    split; [done |]. split; [| split].
    + apply NoDup_cons. split; [| done]. intros Hin.
      specialize (Hdisj name Hin). by rewrite lookup_insert_eq in Hdisj.
    + intros n Hn. apply elem_of_cons in Hn as [-> | Hn]; [done |].
      specialize (Hdisj n Hn).
      destruct (decide (name = n)) as [-> | Hne].
      * by rewrite lookup_insert_eq in Hdisj.
      * by rewrite lookup_insert_ne in Hdisj.
    + intros n m. rewrite Hlook. split.
      * intros [Hm | (i & Hi & Hnew)].
        -- destruct (decide (name = n)) as [-> | Hne].
           ++ rewrite lookup_insert_eq in Hm. injection Hm as <-.
              right. by exists 0%nat.
           ++ rewrite lookup_insert_ne in Hm by done. by left.
        -- right. by exists (S i).
      * intros [Hm | ([|i] & Hi & Hnew)].
        -- left. rewrite lookup_insert_ne; [done |]. intros <-. congruence.
        -- simpl in Hi, Hnew. injection Hi as <-. injection Hnew as <-.
           left. by rewrite lookup_insert_eq.
        -- right. by exists i.
Qed.

Lemma addModels_returns (ms : gmap string Model) new names :
  pluralNames new = Ok names → NoDup names →
  (∀ n, n ∈ names → ms !! n = None) →
  returns (addModels ms new).
Proof.
  revert ms names. induction new as [|model new IH]; intros ms names; simpl.
  - intros _ _ _. by eexists.
  - intros Hnames Hnd Hdisj.
    apply rbind_ok in Hnames as (name & Hname & Hnames).
    apply rbind_ok in Hnames as (names' & Hnames' & [= <-]).
    apply NoDup_cons in Hnd as [Hnotin Hnd].
    rewrite Hname. simpl. rewrite (Hdisj name) by (by left).
    apply (IH _ names' Hnames' Hnd).
    intros n Hn. rewrite lookup_insert_ne; [| by intros <-].
    apply Hdisj. by right.
Qed.

Lemma pluralNames_lookup new names i n :
  pluralNames new = Ok names →
  names !! i = Some n ↔ ∃ m, new !! i = Some m ∧ pluralName m = Ok n.
Proof.
  revert names i. induction new as [|model new IH]; intros names i; simpl.
  - intros [= <-]. rewrite lookup_nil. split; [done |].
    intros (m & Hm & _). by rewrite lookup_nil in Hm.
  - intros Hnames.
    apply rbind_ok in Hnames as (name & Hname & Hnames).
    apply rbind_ok in Hnames as (names' & Hnames' & [= <-]).
    destruct i as [|i]; simpl.
    + split.
      * intros [= <-]. by exists model.
      * intros (m & [= <-] & Hm). congruence.
    + by apply IH.
Qed.

(** X20: when [Add] returns, every model it was given is found under its
    plural name, every model that was found before is still found, nothing
    else is found, and the indexes are as before. *)
Theorem Add_then_Find (c : Catalog) new c' :
  Add c new = Ok c' →
  indexes c' = indexes c ∧
  ∀ n m, Find c' n = Some m ↔
         Find c n = Some m ∨ (m ∈ new ∧ pluralName m = Ok n).
Proof.
  unfold Add. intros Hadd. apply rbind_ok in Hadd as (ms & Hms & [= <-]).
  split; [done |]. unfold Find. simpl.
  destruct (addModels_ok _ _ _ Hms) as (names & Hnames & Hnd & Hdisj & Hlook).
  intros n m. rewrite Hlook. split.
  - intros [Hm | (i & Hi & Hnew)]; [by left |]. right.
    split; [by apply list_elem_of_lookup_2 in Hnew |].
    apply (pluralNames_lookup new names i n Hnames) in Hi as (m' & Hm' & Hn).
    congruence.
  - intros [Hm | [Hin Hn]]; [by left |]. right.
    apply list_elem_of_lookup_1 in Hin as [i Hi]. exists i. split; [| done].
    apply (pluralNames_lookup new names i n Hnames). by exists m.
Qed.

(** X21: [Add] returns exactly when the plural names of the models can be
    had, no two of the models have the same plural name and none of the
    names is taken in the catalog; otherwise it panics.  So [NewCatalog]
    returns exactly when the names can be had and differ. *)
Theorem Add_returns_iff (c : Catalog) new :
  (returns (Add c new) ↔
   ∃ names, pluralNames new = Ok names ∧ NoDup names ∧
            ∀ n, n ∈ names → Find c n = None) ∧
  (returns (NewCatalog new) ↔ ∃ names, pluralNames new = Ok names ∧ NoDup names).
Proof.
  assert (Hiff : ∀ c0 : Catalog,
    returns (Add c0 new) ↔
    ∃ names, pluralNames new = Ok names ∧ NoDup names ∧
             ∀ n, n ∈ names → Find c0 n = None).
  { intros c0. unfold Add, Find. split.
    - intros [c' Hc']. apply rbind_ok in Hc' as (ms & Hms & _).
      destruct (addModels_ok _ _ _ Hms) as (names & Hnames & Hnd & Hdisj & _).
      by exists names.
    - intros (names & Hnames & Hnd & Hdisj).
      destruct (addModels_returns (models c0) new names Hnames Hnd Hdisj) as [ms Hms].
      rewrite Hms. by eexists. }
  split; [apply Hiff |].
  unfold NewCatalog. rewrite Hiff. unfold Find. simpl. split.
  - intros (names & Hnames & Hnd & _). by exists names.
  - intros (names & Hnames & Hnd). exists names. split; [done |]. split; [done |].
    intros n _. apply lookup_empty.
Qed.

(** *** [All] *)

Lemma omap_lookup_keys (ms : gmap string Model) l :
  (∀ k m, (k, m) ∈ l → ms !! k = Some m) →
  omap (λ name, ms !! name) l.*1 = l.*2.
Proof.
  induction l as [|[k m] l IH]; intros Hl; simpl; [done |].
  rewrite (Hl k m) by (by left). simpl. f_equal. apply IH.
  intros k' m' Hin. apply Hl. by right.
Qed.

(** X22: whatever the order in which the names are visited, [All] returns
    the registered models, each once for each name it is registered under:
    as many as there are names, and exactly those that [Find] finds. *)
Theorem All_spec (c : Catalog) (order : list string) :
  order ≡ₚ (map_to_list (models c)).*1 →
  All c order ≡ₚ (map_to_list (models c)).*2 ∧
  length (All c order) = size (models c) ∧
  ∀ m, m ∈ All c order ↔ ∃ n, Find c n = Some m.
Proof.
  intros Horder.
  assert (Hperm : All c order ≡ₚ (map_to_list (models c)).*2).
  { unfold All. rewrite Horder. rewrite omap_lookup_keys; [done |].
    intros k m Hin. by apply elem_of_map_to_list. }
  split; [done |]. split.
  - by rewrite Hperm, length_fmap, length_map_to_list.
  - intros m. rewrite Hperm. unfold Find. rewrite list_elem_of_fmap. split.
    + intros ([k m'] & -> & Hin). exists k. by apply elem_of_map_to_list.
    + intros [n Hn]. exists (n, m). split; [done |]. by apply elem_of_map_to_list.
Qed.

(** *** [AddIndex] and [Compile] *)

(** X23: [AddIndex] is [AddPartialIndex] without a filter; when it returns,
    the models are as before, the index has been put behind the indexes that
    the collection of the model had, and the indexes of the other
    collections are as before. *)
Theorem AddIndex_appends (c : Catalog) model unique expiry fields c' :
  AddIndex c model unique expiry fields = Ok c' →
  AddPartialIndex c model unique expiry fields None = Ok c' ∧
  models c' = models c ∧
  ∃ coll,
    collection model = Ok coll ∧
    indexes c' !! coll
      = Some (default [] (indexes c !! coll)
              ++ [{| IndexModel := model; IndexFields := fields; Unique := unique;
                     Expiry := expiry; IndexFilter := None |}]) ∧
    ∀ coll', coll' ≠ coll → indexes c' !! coll' = indexes c !! coll'.
Proof.
  intros Hadd. split; [done |].
  unfold AddIndex in Hadd. apply rbind_ok in Hadd as (coll & Hcoll & [= <-]).
  split; [done |]. exists coll. split; [done |]. simpl.
  split; [by rewrite lookup_insert_eq |].
  intros coll' Hne. by rewrite lookup_insert_ne.
Qed.

Lemma int32_small x : 0 ≤ x < 2 ^ 31 → int32 x = x.
Proof.
  intros Hx. unfold int32. rewrite Z.mod_small; lia.
Qed.

Lemma fieldKeys_length model fields key :
  fieldKeys model fields = Ok key → length key = length fields.
Proof.
  revert key. induction fields as [|f fields IH]; intros key; simpl.
  - by intros [= <-].
  - intros Hkeys. apply rbind_ok in Hkeys as (k & _ & Hkeys).
    apply rbind_ok in Hkeys as (ks & Hks & [= <-]). simpl. f_equal. by apply IH.
Qed.

(** X24: when [Compile] returns, the index is built in the background, is
    unique as the index says and has the filter of the index; its key has
    one entry for each field; and it expires only for an expiry above zero,
    after the whole seconds of the expiry: after zero seconds for an expiry
    below a second, and after as many seconds as the expiry has as long as
    these are fewer than 2^31. *)
Theorem Compile_options (i : Index) im :
  Compile i = Ok im →
  OptUnique (Options im) = Some (Unique i) ∧
  OptBackground (Options im) = Some true ∧
  OptPartialFilterExpression (Options im) = IndexFilter i ∧
  (∃ key, fieldKeys (IndexModel i) (IndexFields i) = Ok key ∧
          Keys im = Sort key ∧ length key = length (IndexFields i)) ∧
  (Expiry i ≤ 0 → OptExpireAfterSeconds (Options im) = None) ∧
  (0 < Expiry i < Second → OptExpireAfterSeconds (Options im) = Some 0) ∧
  (0 < Expiry i < 2 ^ 31 * Second →
   OptExpireAfterSeconds (Options im) = Some (Expiry i `div` Second) ∧
   0 ≤ Expiry i `div` Second < 2 ^ 31).
Proof.
  unfold Compile. intros Hc. apply rbind_ok in Hc as (key & Hkey & [= <-]). simpl.
  split; [done |]. split; [done |]. split; [done |].
  split; [exists key; split; [done |]; split; [done |];
          by apply (fieldKeys_length (IndexModel i)) |].
  assert (Hsec : 0 < Second) by (unfold Second; lia).
  split; [| split].
  - intros Hle. rewrite decide_False; [done | lia].
  - intros Hsmall. rewrite decide_True by lia.
    rewrite Z.quot_small by lia. done.
  - intros Hrange.
    assert (Hdiv : 0 ≤ Expiry i `div` Second < 2 ^ 31).
    { split; [apply Z.div_pos; lia |]. apply Z.div_lt_upper_bound; lia. }
    rewrite decide_True by lia.
    rewrite Z.quot_div_nonneg by lia. by rewrite int32_small.
Qed.

End Catalog.

End CoalCatalogFacts.

(** ** The catalog on the models of the tests *)

Module CoalCatalogSample.
Import CoalCatalog CoalCatalogFacts.

Example NewCatalog_of_the_tests :
  NewCatalog (H := testModels) (modelsOf ["posts"; "comments"]) = Ok twoModels
  ∧ NewCatalog (H := testModels) (modelsOf ["posts"; "posts"])
    = Panic ("coal: model with name " +:+ dquote +:+ "posts" +:+ dquote
             +:+ " already exists in catalog")
  ∧ NewCatalog (H := testModels) (modelsOf []) = Ok emptyCatalog.
Proof. repeat split; by vm_compute. Qed.

(** An expiry of 2^31 seconds does not fit: the driver is told a negative
    number of seconds. *)
Example Compile_wraps :
  OptExpireAfterSeconds <$>
    (Options <$>
       (match Compile (H := testModels)
                {| IndexModel := modelOf "posts"; IndexFields := ["Title"%string];
                   Unique := false; Expiry := 2 ^ 31 * Second; IndexFilter := None |}
        with Ok im => Some im | Panic _ => None end))
  = Some (Some (- 2 ^ 31)).
Proof. by vm_compute. Qed.

Lemma Add_then_Find_witness :
  Add emptyCatalog (modelsOf ["posts"; "comments"]) = Ok twoModels ∧
  Find twoModels "posts" = Some (modelOf "posts") ∧
  Find twoModels "users" = None.
Proof.
  assert (Hadd : Add emptyCatalog (modelsOf ["posts"; "comments"]) = Ok twoModels)
    by (by vm_compute).
  split; [done |].
  destruct (Add_then_Find emptyCatalog (modelsOf ["posts"; "comments"]) twoModels Hadd)
    as [_ Hfind].
  split.
  - apply Hfind. right. split; [by left | reflexivity].
  - destruct (Find twoModels "users") as [m|] eqn:Hm; [| done].
    apply Hfind in Hm as [Hm | [Hin Hn]]; [done |].
    vm_compute in Hn. destruct m; discriminate || (injection Hn as ->).
    apply elem_of_cons in Hin as [Heq | Hin]; [discriminate |].
    apply list_elem_of_singleton in Hin. discriminate.
Defined.

Lemma Add_returns_iff_witness :
  (pluralNames (H := testModels) (modelsOf ["posts"; "comments"])
     = Ok ["posts"; "comments"]%string
   ∧ NoDup ["posts"; "comments"]%string) ∧
  returns (NewCatalog (H := testModels) (modelsOf ["posts"; "comments"])).
Proof.
  assert (Hn : pluralNames (H := testModels) (modelsOf ["posts"; "comments"])
               = Ok ["posts"; "comments"]%string) by reflexivity.
  assert (Hnd : NoDup ["posts"; "comments"]%string).
  { apply NoDup_cons. split; [| apply NoDup_singleton].
    intros Hin. apply list_elem_of_singleton in Hin. discriminate. }
  split; [done |].
  destruct (Add_returns_iff emptyCatalog (modelsOf ["posts"; "comments"])) as [_ Hnew].
  apply Hnew. by exists ["posts"; "comments"]%string.
Defined.

Lemma All_spec_witness :
  ["posts"; "comments"]%string ≡ₚ (map_to_list (models twoModels)).*1 ∧
  length (All twoModels ["posts"; "comments"]%string) = 2%nat ∧
  modelOf "comments" ∈ All twoModels ["posts"; "comments"]%string.
Proof.
  assert (Hperm : ["posts"; "comments"]%string ≡ₚ (map_to_list (models twoModels)).*1).
  { vm_compute. first [reflexivity | apply perm_swap]. }
  split; [done |].
  destruct (All_spec twoModels ["posts"; "comments"]%string Hperm) as (_ & Hlen & Hall).
  split; [exact Hlen |]. apply Hall. by exists "comments"%string.
Defined.

Lemma AddIndex_appends_witness :
  let i := {| IndexModel := modelOf "posts"; IndexFields := ["Title"%string];
              Unique := true; Expiry := 0; IndexFilter := None |} in
  let c' := {| models := models twoModels; indexes := {[ "posts"%string := [i] ]} |} in
  AddIndex twoModels (modelOf "posts") true 0 ["Title"%string] = Ok c' ∧
  AddPartialIndex twoModels (modelOf "posts") true 0 ["Title"%string] None = Ok c' ∧
  models c' = models twoModels.
Proof.
  intros i c'.
  assert (Hadd : AddIndex twoModels (modelOf "posts") true 0 ["Title"%string] = Ok c')
    by (by vm_compute).
  split; [done |].
  destruct (AddIndex_appends twoModels (modelOf "posts") true 0 ["Title"%string] c' Hadd)
    as (Hpartial & Hmodels & _).
  by split.
Defined.

Lemma Compile_options_witness :
  let i := {| IndexModel := modelOf "posts"; IndexFields := ["Title"; "TextBody"]%string;
              Unique := true; Expiry := 90 * Second + 5; IndexFilter := someFilter |} in
  let im := {| Keys := @Sort testModels ["title"; "textbody"]%string;
               Options := {| OptUnique := Some true; OptBackground := Some true;
                             OptPartialFilterExpression := someFilter;
                             OptExpireAfterSeconds := Some 90 |} |} in
  (Compile (H := testModels) i = Ok im ∧ 0 < Expiry i < 2 ^ 31 * Second) ∧
  OptExpireAfterSeconds (Options im) = Some (Expiry i `div` Second) ∧
  0 ≤ Expiry i `div` Second < 2 ^ 31.
Proof.
  intros i im.
  assert (Hc : Compile (H := testModels) i = Ok im) by (by vm_compute).
  assert (Hr : 0 < Expiry i < 2 ^ 31 * Second) by (by vm_compute).
  split; [done |].
  destruct (Compile_options (H := testModels) i im Hc) as (_ & _ & _ & _ & _ & _ & Hexp).
  by apply Hexp.
Defined.

End CoalCatalogSample.

(** ** Package fire: callbacks *)

Module FireFacts.
Import Fire.

Section Callbacks.
Context `{Framework}.

Lemma onlyLoop_spec (cb : Callback) ops ctx :
  onlyLoop cb ops ctx =
    if decide (ctxOperation ctx ∈ ops) then Handler cb ctx else (ctx, None).
Proof.
  induction ops as [|a ops IH]; cbn [onlyLoop].
  - rewrite decide_False; [done | apply not_elem_of_nil].
  - destruct (decide (a = ctxOperation ctx)) as [Ha | Ha].
    + subst a. rewrite decide_True; [done | by left].
    + rewrite IH. destruct (decide (ctxOperation ctx ∈ ops)) as [Hin | Hin].
      * rewrite decide_True; [done | by right].
      * rewrite decide_False; [done |].
        intros Hin'. apply elem_of_cons in Hin' as [Heq | Hin']; [congruence | done].
Qed.

Lemma exceptLoop_spec (cb : Callback) ops ctx :
  exceptLoop cb ops ctx =
    if decide (ctxOperation ctx ∈ ops) then (ctx, None) else Handler cb ctx.
Proof.
  induction ops as [|a ops IH]; cbn [exceptLoop].
  - rewrite decide_False; [done | apply not_elem_of_nil].
  - destruct (decide (a = ctxOperation ctx)) as [Ha | Ha].
    + subst a. rewrite decide_True; [done | by left].
    + rewrite IH. destruct (decide (ctxOperation ctx ∈ ops)) as [Hin | Hin].
      * rewrite decide_True; [done | by right].
      * rewrite decide_False; [done |].
        intros Hin'. apply elem_of_cons in Hin' as [Heq | Hin']; [congruence | done].
Qed.

(** X25: for the same callback and operations, [Only] and [Except] are each
    other's complement: when the operation of the context is one of the
    operations, [Only] runs the callback (under its name on the tracer) and
    [Except] runs nothing; when it is none of them, [Only] runs nothing and
    [Except] runs the callback. *)
Theorem Only_Except_complement (cb : Callback) ops ctx :
  let only := "fire/Only(" +:+ joinOperations ops "," +:+ ")" in
  let except := "fire/Except(" +:+ joinOperations ops "," +:+ ")" in
  (ctxOperation ctx ∈ ops →
   Handler (Only cb ops) ctx = Handler (C only (Handler cb)) ctx ∧
   Handler (Except cb ops) ctx = Handler (C except skip) ctx) ∧
  (ctxOperation ctx ∉ ops →
   Handler (Only cb ops) ctx = Handler (C only skip) ctx ∧
   Handler (Except cb ops) ctx = Handler (C except (Handler cb)) ctx).
Proof.
  intros only except. unfold Only, Except, C, skip. simpl.
  rewrite onlyLoop_spec, exceptLoop_spec. simpl. fold only except.
  split; intros Hin.
  - by rewrite !decide_True.
  - by rewrite !decide_False.
Qed.

(** *** [Combine] *)

Lemma combineLoop_app (cbs1 cbs2 : list Callback) ctx :
  combineLoop (cbs1 ++ cbs2) ctx =
    match combineLoop cbs1 ctx with
    | (ctx', None) => combineLoop cbs2 ctx'
    | (ctx', Some err) => (ctx', Some err)
    end.
Proof.
  revert ctx. induction cbs1 as [|cb cbs1 IH]; intros ctx; simpl; [done |].
  destruct (Handler cb ctx) as [ctx' [err|]]; [done | apply IH].
Qed.

(** X26: [Combine] runs the callbacks in order from the context with its
    name on the tracer: running two lists one after the other is running the
    first and, if it returns no error, the second from where the first
    ended; when all callbacks before one return no error and that one
    returns an error, [Combine] returns this error and the context as that
    callback left it, whatever callbacks follow; and when all return no
    error, the name is taken from the tracer again. *)
Theorem Combine_first_error (cbs1 cbs2 : list Callback) (cb : Callback) ctx :
  let start := TracerPush "fire/Combine" ctx in
  combineLoop (cbs1 ++ cbs2) start =
    match combineLoop cbs1 start with
    | (ctx', None) => combineLoop cbs2 ctx'
    | (ctx', Some err) => (ctx', Some err)
    end ∧
  (∀ ctx1 ctx2 err,
     combineLoop cbs1 start = (ctx1, None) → Handler cb ctx1 = (ctx2, Some err) →
     Handler (Combine (cbs1 ++ cb :: cbs2)) ctx = (ctx2, Some err)) ∧
  (∀ ctx1,
     combineLoop cbs1 start = (ctx1, None) →
     Handler (Combine cbs1) ctx = (TracerPop ctx1, None)).
Proof.
  intros start. split; [apply combineLoop_app |]. split.
  - intros ctx1 ctx2 err H1 Hcb. unfold Combine, C. simpl. fold start.
    rewrite combineLoop_app, H1. simpl. by rewrite Hcb.
  - intros ctx1 H1. unfold Combine, C. simpl. fold start. by rewrite H1.
Qed.

(** *** [BasicAuthorizer] *)

(** X27: [BasicAuthorizer] returns no error exactly when the request has
    credentials and the list has the password of the request under the user
    of the request; otherwise the error is "access denied".  It leaves the
    operation and the state of the context alone, and its name stays on the
    tracer when it denies access. *)
Theorem BasicAuthorizer_spec (credentials : gmap string string) ctx :
  let r := Handler (BasicAuthorizer credentials) ctx in
  (r.2 = None ↔
   ∃ user password,
     ctxBasicAuth ctx = Some (user, password) ∧ credentials !! user = Some password) ∧
  (r.2 = None ∨ r.2 = accessDenied) ∧
  ctxOperation r.1 = ctxOperation ctx ∧ ctxState r.1 = ctxState ctx ∧
  ctxBasicAuth r.1 = ctxBasicAuth ctx ∧
  (r.2 = None → ctxTracer r.1 = Pop (Push "fire/BasicAuthorizer" (ctxTracer ctx))) ∧
  (r.2 ≠ None → ctxTracer r.1 = Push "fire/BasicAuthorizer" (ctxTracer ctx)).
Proof.
  unfold BasicAuthorizer, C, accessDenied. simpl.
  destruct (ctxBasicAuth ctx) as [[user password]|] eqn:Hauth; simpl.
  - destruct (credentials !! user) as [val|] eqn:Hval; simpl.
    + case_decide as Hne; simpl.
      * split; [| by repeat split; auto].
        split; [done |]. intros (u & p & [= <- <-] & Hp). congruence.
      * subst val.
        split; [| by repeat split; auto].
        split; [| done]. intros _. by exists user, password.
    + split; [| by repeat split; auto].
      split; [done |]. intros (u & p & [= <- <-] & Hp). congruence.
  - split; [| by repeat split; auto].
    split; [done |]. by intros (u & p & Hp & _).
Qed.

End Callbacks.

Example callbacks_run :
  Handler (Only counting (opsOf [1; 2]%nat)) (plainContext 2 None)
    = (plainContextWith 2 [] None 1, None)
  ∧ Handler (Except counting (opsOf [1; 2]%nat)) (plainContext 2 None)
    = (plainContextWith 2 [] None 0, None)
  ∧ Handler (Except counting (opsOf [1; 2]%nat)) (plainContext 3 None)
    = (plainContextWith 3 [] None 1, None)
  ∧ Handler (Combine [counting; failing; counting]) (plainContext 0 None)
    = (plainContextWith 0 ["fire/Combine"%string] None 1, Some "failed"%string)
  ∧ Handler (Combine [counting; counting]) (plainContext 0 None)
    = (plainContextWith 0 [] None 2, None).
Proof. repeat split; reflexivity. Qed.

Lemma Only_Except_complement_witness :
  ctxOperation (plainContext 2 None) ∈ opsOf [1; 2]%nat ∧
  Handler (Except counting (opsOf [1; 2]%nat)) (plainContext 2 None)
  = Handler (C "fire/Except()" skip) (plainContext 2 None).
Proof.
  assert (Hin : ctxOperation (plainContext 2 None) ∈ opsOf [1; 2]%nat).
  { right. left. }
  split; [done |].
  destruct (Only_Except_complement counting (opsOf [1; 2]%nat) (plainContext 2 None))
    as [Hyes _].
  by destruct (Hyes Hin).
Defined.

Lemma Combine_first_error_witness :
  let start := TracerPush "fire/Combine" (plainContext 0 None) in
  let ctx1 := (Handler counting start).1 in
  (combineLoop [counting] start = (ctx1, None)
   ∧ Handler failing ctx1 = (ctx1, Some "failed"%string)) ∧
  Handler (Combine ([counting] ++ failing :: [counting])) (plainContext 0 None)
  = (ctx1, Some "failed"%string).
Proof.
  intros start ctx1.
  assert (H1 : combineLoop [counting] start = (ctx1, None)) by reflexivity.
  assert (H2 : Handler failing ctx1 = (ctx1, Some "failed"%string)) by reflexivity.
  split; [done |].
  destruct (Combine_first_error [counting] [counting] failing (plainContext 0 None))
    as (_ & Herr & _).
  apply (Herr ctx1 ctx1 "failed"%string H1 H2).
Defined.

Lemma BasicAuthorizer_spec_witness :
  let credentials : gmap string string := {[ "admin"%string := "secret"%string ]} in
  let ctx := plainContext 0 (Some ("admin", "secret")%string) in
  (∃ user password,
     ctxBasicAuth ctx = Some (user, password) ∧ credentials !! user = Some password) ∧
  (Handler (BasicAuthorizer credentials) ctx).2 = None.
Proof.
  intros credentials ctx.
  assert (Hok : ∃ user password,
            ctxBasicAuth ctx = Some (user, password)
            ∧ credentials !! user = Some password).
  { exists "admin"%string, "secret"%string. split; reflexivity. }
  split; [done |].
  destruct (BasicAuthorizer_spec credentials ctx) as [Hiff _].
  by apply Hiff.
Defined.

End FireFacts.
